(** * simple-basex: the protocol engine of [index.js]

    A shallow embedding of the BaseX client session of [index.js] (the
    string decoder over the chain of input buffers, the pending read slot,
    the chain of readers, the login handshake and the command queue) and
    the properties of it that the specification states.

    Layout: the platform (Node's [Buffer], UTF-8 and [crypto] MD5), then the
    session state and the functions of [Session.prototype], then the event
    loop; lemmas and theorems follow the definitions. *)

From Stdlib Require Import ZArith Strings.Byte Ascii String Lia.
From stdpp Require Import base list.

Open Scope Z_scope.

(** ** Platform: bytes, strings, buffers *)

(** An element of a Node [Buffer] is a [byte]; a JavaScript string is modelled
    by its sequence of code points (a surrogate pair is one code point; a lone
    surrogate is a code point in D800..DFFF). *)
Abbreviation codepoint := Z (only parsing).
Abbreviation jsstring := (list Z) (only parsing).
Abbreviation buffer := (list byte) (only parsing).

Definition Z_of_byte (b : byte) : Z := Z.of_N (Byte.to_N b).

(** Storing a number into a [Buffer] keeps its low eight bits. *)
Definition byte_of_Z (z : Z) : byte :=
  match Byte.of_N (Z.to_N (z mod 256)) with
  | Some b => b
  | None => x00
  end.

(** A string literal of the source, as a [jsstring]. *)
Definition js (s : string) : jsstring :=
  map (fun a => Z.of_N (N_of_ascii a)) (list_ascii_of_string s).

(** [new Buffer(n)]: [n] bytes (Node leaves them uninitialised; every byte the
    program reads back has been written before, zero stands for the rest). *)
Definition new_Buffer (n : nat) : buffer := replicate n x00.

(** [src.copy(dst)]: the bytes of [src] over the start of [dst], as many as
    fit. *)
Definition Buffer_copy (src dst : buffer) : buffer :=
  take (length dst) src ++ drop (length src) dst.

(** A block of bytes stored at [off]; the caller checks that it fits. *)
Definition blit (bs : buffer) (off : nat) (buf : buffer) : buffer :=
  take off buf ++ bs ++ drop (off + length bs) buf.

(** *** UTF-8 *)

Definition replacement : codepoint := 0xFFFD.

Definition is_surrogate (c : codepoint) : bool :=
  (0xD800 <=? c) && (c <=? 0xDFFF).

(** A Unicode scalar value: what a well-formed string consists of. *)
Definition scalar (c : codepoint) : Prop :=
  0 <= c < 0x110000 /\ is_surrogate c = false.

(** The UTF-8 bytes of one code point; a lone surrogate (and anything that is
    no code point) is written as U+FFFD, EF BF BD. *)
Definition utf8_encode_cp (c : codepoint) : buffer :=
  if (c <? 0) || (0x110000 <=? c) || is_surrogate c then [xef; xbf; xbd]
  else if c <? 0x80 then [byte_of_Z c]
  else if c <? 0x800 then
    [byte_of_Z (0xC0 + c / 64); byte_of_Z (0x80 + c mod 64)]
  else if c <? 0x10000 then
    [byte_of_Z (0xE0 + c / 4096); byte_of_Z (0x80 + (c / 64) mod 64);
     byte_of_Z (0x80 + c mod 64)]
  else
    [byte_of_Z (0xF0 + c / 262144); byte_of_Z (0x80 + (c / 4096) mod 64);
     byte_of_Z (0x80 + (c / 64) mod 64); byte_of_Z (0x80 + c mod 64)].

(** [new Buffer(str)] / the bytes [buffer.write(str)] stores when all fit. *)
Definition utf8_encode (s : jsstring) : buffer :=
  flat_map utf8_encode_cp s.

(** [Buffer.byteLength(str)] *)
Definition Buffer_byteLength (s : jsstring) : nat := length (utf8_encode s).

Definition is_cont (z : Z) : bool := (0x80 <=? z) && (z <=? 0xBF).

Definition cp2 (z0 z1 : Z) : Z := (z0 - 0xC0) * 64 + (z1 - 0x80).
Definition cp3 (z0 z1 z2 : Z) : Z :=
  (z0 - 0xE0) * 4096 + (z1 - 0x80) * 64 + (z2 - 0x80).
Definition cp4 (z0 z1 z2 z3 : Z) : Z :=
  (z0 - 0xF0) * 262144 + (z1 - 0x80) * 4096 + (z2 - 0x80) * 64 + (z3 - 0x80).

Definition ok2 (z0 z1 : Z) : bool :=
  (0xC2 <=? z0) && (z0 <=? 0xDF) && is_cont z1.
Definition ok3 (z0 z1 z2 : Z) : bool :=
  (0xE0 <=? z0) && (z0 <=? 0xEF) && is_cont z1 && is_cont z2 &&
  (0x800 <=? cp3 z0 z1 z2) && negb (is_surrogate (cp3 z0 z1 z2)).
Definition ok4 (z0 z1 z2 z3 : Z) : bool :=
  (0xF0 <=? z0) && (z0 <=? 0xF4) && is_cont z1 && is_cont z2 && is_cont z3 &&
  (0x10000 <=? cp4 z0 z1 z2 z3) && (cp4 z0 z1 z2 z3 <? 0x110000).

(** [buf.toString('utf8')]: well-formed sequences give their code point; a
    byte that starts none gives U+FFFD and decoding resumes after it. *)
Fixpoint utf8_decode (bs : buffer) : jsstring :=
  match bs with
  | [] => []
  | b0 :: r0 =>
    let z0 := Z_of_byte b0 in
    if z0 <? 0x80 then z0 :: utf8_decode r0 else
    match r0 with
    | [] => [replacement]
    | b1 :: r1 =>
      let z1 := Z_of_byte b1 in
      if ok2 z0 z1 then cp2 z0 z1 :: utf8_decode r1 else
      match r1 with
      | [] => replacement :: utf8_decode r0
      | b2 :: r2 =>
        let z2 := Z_of_byte b2 in
        if ok3 z0 z1 z2 then cp3 z0 z1 z2 :: utf8_decode r2 else
        match r2 with
        | [] => replacement :: utf8_decode r0
        | b3 :: r3 =>
          let z3 := Z_of_byte b3 in
          if ok4 z0 z1 z2 z3 then cp4 z0 z1 z2 z3 :: utf8_decode r3
          else replacement :: utf8_decode r0
        end
      end
    end
  end.

(** [buffer.write(str, off)]: the UTF-8 bytes of [str] from [off] on, whole
    characters only and as many as fit; returns the number of bytes written. *)
Fixpoint Buffer_write (s : jsstring) (off : nat) (buf : buffer) : buffer * nat :=
  match s with
  | [] => (buf, 0%nat)
  | c :: s' =>
    let e := utf8_encode_cp c in
    if (off + length e <=? length buf)%nat then
      let '(buf', n) := Buffer_write s' (off + length e) (blit e off buf) in
      (buf', (length e + n)%nat)
    else (buf, 0%nat)
  end.

(** *** MD5 ([crypto.createHash('md5')], RFC 1321) *)

Definition add32 (a b : Z) : Z := (a + b) mod 2 ^ 32.
Definition not32 (a : Z) : Z := Z.lxor a 0xFFFFFFFF.
Definition rotl32 (x c : Z) : Z :=
  Z.lor (Z.shiftl x c mod 2 ^ 32) (Z.shiftr x (32 - c)).

Definition md5_S : list Z :=
  [7; 12; 17; 22; 7; 12; 17; 22; 7; 12; 17; 22; 7; 12; 17; 22;
   5; 9; 14; 20; 5; 9; 14; 20; 5; 9; 14; 20; 5; 9; 14; 20;
   4; 11; 16; 23; 4; 11; 16; 23; 4; 11; 16; 23; 4; 11; 16; 23;
   6; 10; 15; 21; 6; 10; 15; 21; 6; 10; 15; 21; 6; 10; 15; 21].

Definition md5_K : list Z :=
  [0xd76aa478; 0xe8c7b756; 0x242070db; 0xc1bdceee;
   0xf57c0faf; 0x4787c62a; 0xa8304613; 0xfd469501;
   0x698098d8; 0x8b44f7af; 0xffff5bb1; 0x895cd7be;
   0x6b901122; 0xfd987193; 0xa679438e; 0x49b40821;
   0xf61e2562; 0xc040b340; 0x265e5a51; 0xe9b6c7aa;
   0xd62f105d; 0x02441453; 0xd8a1e681; 0xe7d3fbc8;
   0x21e1cde6; 0xc33707d6; 0xf4d50d87; 0x455a14ed;
   0xa9e3e905; 0xfcefa3f8; 0x676f02d9; 0x8d2a4c8a;
   0xfffa3942; 0x8771f681; 0x6d9d6122; 0xfde5380c;
   0xa4beea44; 0x4bdecfa9; 0xf6bb4b60; 0xbebfbc70;
   0x289b7ec6; 0xeaa127fa; 0xd4ef3085; 0x04881d05;
   0xd9d4d039; 0xe6db99e5; 0x1fa27cf8; 0xc4ac5665;
   0xf4292244; 0x432aff97; 0xab9423a7; 0xfc93a039;
   0x655b59c3; 0x8f0ccc92; 0xffeff47d; 0x85845dd1;
   0x6fa87e4f; 0xfe2ce6e0; 0xa3014314; 0x4e0811a1;
   0xf7537e82; 0xbd3af235; 0x2ad7d2bb; 0xeb86d391].

(** Little-endian bytes of a word, and back. *)
Definition le_bytes (n : nat) (w : Z) : list Z :=
  map (fun i => (w / 2 ^ (8 * Z.of_nat i)) mod 256) (seq 0 n).

Fixpoint le_word (bs : list Z) : Z :=
  match bs with
  | [] => 0
  | b :: r => b + 256 * le_word r
  end.

(** The message, the bit 1, zeros up to 56 modulo 64, and the length in bits
    as eight little-endian bytes. *)
Definition md5_pad (msg : list Z) : list Z :=
  let len := Z.of_nat (length msg) in
  let zeros := Z.to_nat ((55 - len) mod 64) in
  msg ++ [0x80] ++ replicate zeros 0 ++ le_bytes 8 ((8 * len) mod 2 ^ 64).

(** The sixteen words of each 64-byte block; the fuel is the number of
    blocks. *)
Fixpoint md5_blocks (n : nat) (bs : list Z) : list (list Z) :=
  match n with
  | O => []
  | S n' =>
    map (fun i => le_word (take 4 (drop (4 * i) bs))) (seq 0 16)
      :: md5_blocks n' (drop 64 bs)
  end.

Definition md5_state : Type := Z * Z * Z * Z.

Definition md5_step (M : list Z) (st : md5_state) (i : nat) : md5_state :=
  let '(a, b, c, d) := st in
  let '(f, g) :=
    if (i <? 16)%nat then
      (Z.lor (Z.land b c) (Z.land (not32 b) d), i)
    else if (i <? 32)%nat then
      (Z.lor (Z.land d b) (Z.land (not32 d) c), ((5 * i + 1) mod 16)%nat)
    else if (i <? 48)%nat then
      (Z.lxor (Z.lxor b c) d, ((3 * i + 5) mod 16)%nat)
    else
      (Z.lxor c (Z.lor b (not32 d)), ((7 * i) mod 16)%nat) in
  let f' := add32 (add32 (add32 f a) (nth i md5_K 0)) (nth g M 0) in
  (d, add32 b (rotl32 f' (nth i md5_S 0)), b, c).

Definition md5_block (st : md5_state) (M : list Z) : md5_state :=
  let '(a0, b0, c0, d0) := st in
  let '(a, b, c, d) := fold_left (md5_step M) (seq 0 64) st in
  (add32 a0 a, add32 b0 b, add32 c0 c, add32 d0 d).

Definition md5_digest (msg : buffer) : list Z :=
  let padded := md5_pad (map Z_of_byte msg) in
  let '(a, b, c, d) :=
    fold_left md5_block (md5_blocks (length padded / 64) padded)
      (0x67452301, 0xefcdab89, 0x98badcfe, 0x10325476) in
  le_bytes 4 a ++ le_bytes 4 b ++ le_bytes 4 c ++ le_bytes 4 d.

Definition hex_digit (d : Z) : codepoint :=
  if d <? 10 then 48 + d else 87 + d.

(** [.digest("hex")]: two lowercase hexadecimal digits per byte. *)
Definition hex (bs : list Z) : jsstring :=
  flat_map (fun b => [hex_digit (b / 16); hex_digit (b mod 16)]) bs.

(** [function md5(str)] of index.js:
    [crypto.createHash('md5').update(str).digest("hex")]. *)
Definition md5 (str : jsstring) : jsstring :=
  hex (md5_digest (utf8_encode str)).

(** ** The session *)

(** [this.options], with [exports.sessionDefaults] behind it. *)
Record options_t := {
  user : jsstring;
  password : jsstring;
  initialStringBufferSize : nat
}.

Definition sessionDefaults : options_t := {|
  user := js "admin";
  password := js "admin";
  initialStringBufferSize := N.to_nat 0x10000
|}.

(** The two readers, as the function values [waiting[0]] is compared with. *)
Inductive reader := Fn_readString | Fn_readByte.

(** The handler of a command: [this.defaultHandler], or a function of the
    caller, known by a number. *)
Inductive handler := Fn_defaultHandler | Fn_callback (id : nat).

(** The values that reach a continuation: a string from [readString], a byte
    from [readByte], [undefined] for a missing argument or [buffer[0]] of an
    empty buffer. *)
Inductive jsval := undefined | VByte (b : byte) | VStr (s : jsstring).

(** The closures handed to a reader, defunctionalised:
    - the [function(timestamp)] of [performHandshake],
    - the [function(loginStatus)] of [getLoginStatus],
    - [maybeInvokeNext] of [chain], with the [args] collected so far and the
      [functions] still to call; its terminal handler is the [invokeHandler]
      of [execute(query, handler)]. *)
Inductive cont :=
  | K_handshake
  | K_loginStatus
  | K_maybeInvokeNext (query : jsstring) (h : handler)
      (args : list jsval) (functions : list reader).

(** The callbacks given to [socket.write]: [getLoginStatus], and the function
    of [execute] that starts the chain. *)
Inductive write_callback :=
  | W_getLoginStatus
  | W_chain (query : jsstring) (h : handler).

(** A queued [arguments.callee.bind(this, query, handler)]. *)
Record thunk := { thunk_query : jsstring; thunk_handler : handler }.

(** What the session does to the outside. *)
Inductive output :=
  | Socket_write (bytes : buffer)
  | Emit_loggedIn
  | Emit_error (message : jsstring)
  | Emit_result (result info code : jsval)
  | Handler_call (id : nat) (args : list jsval)
  | Throw_TypeError.

Record session := {
  options : options_t;
  stringBuffer : buffer;
  stringBufferOffset : nat;
  inEscape : bool;
  waiting : option (reader * cont);
  buffers : list buffer;
  busy : bool;
  queue : list thunk;
  (** the socket: callbacks of writes not yet flushed, oldest first *)
  written : list write_callback
}.

Definition set_stringBuffer (v : buffer) (s : session) : session :=
  {| options := options s; stringBuffer := v;
     stringBufferOffset := stringBufferOffset s; inEscape := inEscape s;
     waiting := waiting s; buffers := buffers s; busy := busy s;
     queue := queue s; written := written s |}.

Definition set_stringBufferOffset (v : nat) (s : session) : session :=
  {| options := options s; stringBuffer := stringBuffer s;
     stringBufferOffset := v; inEscape := inEscape s;
     waiting := waiting s; buffers := buffers s; busy := busy s;
     queue := queue s; written := written s |}.

Definition set_inEscape (v : bool) (s : session) : session :=
  {| options := options s; stringBuffer := stringBuffer s;
     stringBufferOffset := stringBufferOffset s; inEscape := v;
     waiting := waiting s; buffers := buffers s; busy := busy s;
     queue := queue s; written := written s |}.

Definition set_waiting (v : option (reader * cont)) (s : session) : session :=
  {| options := options s; stringBuffer := stringBuffer s;
     stringBufferOffset := stringBufferOffset s; inEscape := inEscape s;
     waiting := v; buffers := buffers s; busy := busy s;
     queue := queue s; written := written s |}.

Definition set_buffers (v : list buffer) (s : session) : session :=
  {| options := options s; stringBuffer := stringBuffer s;
     stringBufferOffset := stringBufferOffset s; inEscape := inEscape s;
     waiting := waiting s; buffers := v; busy := busy s;
     queue := queue s; written := written s |}.

Definition set_busy (v : bool) (s : session) : session :=
  {| options := options s; stringBuffer := stringBuffer s;
     stringBufferOffset := stringBufferOffset s; inEscape := inEscape s;
     waiting := waiting s; buffers := buffers s; busy := v;
     queue := queue s; written := written s |}.

Definition set_queue (v : list thunk) (s : session) : session :=
  {| options := options s; stringBuffer := stringBuffer s;
     stringBufferOffset := stringBufferOffset s; inEscape := inEscape s;
     waiting := waiting s; buffers := buffers s; busy := busy s;
     queue := v; written := written s |}.

Definition set_written (v : list write_callback) (s : session) : session :=
  {| options := options s; stringBuffer := stringBuffer s;
     stringBufferOffset := stringBufferOffset s; inEscape := inEscape s;
     waiting := waiting s; buffers := buffers s; busy := busy s;
     queue := queue s; written := v |}.

(** A method of the session: the state after it and what it did, in order. *)
Definition action := session -> session * list output.

Definition skip : action := fun s => (s, []).
Definition emit (o : output) : action := fun s => (s, [o]).
Definition update (f : session -> session) : action := fun s => (f s, []).
Definition andthen (a b : action) : action := fun s =>
  let '(s1, o1) := a s in
  let '(s2, o2) := b s1 in
  (s2, o1 ++ o2).

Notation "a >>> b" := (andthen a b) (at level 65, right associativity).

(** [new Session(options)], up to the creation of the socket. *)
Definition new_Session (o : options_t) : session := {|
  options := o;
  stringBuffer := new_Buffer (initialStringBufferSize o);
  stringBufferOffset := 0;
  inEscape := false;
  waiting := None;
  buffers := [];
  busy := true;
  queue := [];
  written := []
|}.

(** *** Writing *)

(** The second loop of [writeStrings]: each string at [offset], then a zero. *)
Fixpoint writeStrings_fill (strs : list jsstring) (offset : nat) (buf : buffer)
  : buffer :=
  match strs with
  | [] => buf
  | str :: strs' =>
    let '(buf1, n) := Buffer_write str offset buf in
    let offset1 := (offset + n)%nat in
    writeStrings_fill strs' (S offset1) (<[offset1 := x00]> buf1)
  end.

(** The buffer [writeStrings] hands to the socket: sized by the first loop,
    filled by the second. *)
Definition writeStrings_buffer (strs : list jsstring) : buffer :=
  let bufferSize :=
    fold_left (fun n str => (n + (Buffer_byteLength str + 1))%nat) strs 0%nat in
  writeStrings_fill strs 0 (new_Buffer bufferSize).

(** [writeStrings(str..., handler)]: the leading string arguments and the
    callback after them. *)
Definition writeStrings (strs : list jsstring) (cb : write_callback) : action :=
  fun s =>
    (set_written (written s ++ [cb]) s, [Socket_write (writeStrings_buffer strs)]).

(** *** Decoding *)

Definition pushToStringBuffer (byte : byte) (s : session) : session :=
  let s1 :=
    if (length (stringBuffer s) =? stringBufferOffset s)%nat then
      set_stringBuffer
        (Buffer_copy (stringBuffer s) (new_Buffer (stringBufferOffset s * 2))) s
    else s in
  set_stringBufferOffset (S (stringBufferOffset s1))
    (set_stringBuffer (<[stringBufferOffset s1 := byte]> (stringBuffer s1)) s1).

(** The [for] loop of [getStringFromBuffers] over the bytes of one buffer from
    index [i] on ([rest] is [buffer.slice(i)]): the string and
    [buffer.slice(i + 1)] at a terminator, nothing when the buffer ends. *)
Fixpoint scanBuffer (rest : buffer) (s : session)
  : option (jsstring * buffer) * session :=
  match rest with
  | [] => (None, s)
  | byte :: rest' =>
    if inEscape s then
      scanBuffer rest' (set_inEscape false (pushToStringBuffer byte s))
    else if Byte.eqb byte xff then
      scanBuffer rest' (set_inEscape true s)
    else if Byte.eqb byte x00 then
      let retval := utf8_decode (take (stringBufferOffset s) (stringBuffer s)) in
      (Some (retval, rest'), set_stringBufferOffset 0 s)
    else
      scanBuffer rest' (pushToStringBuffer byte s)
  end.

(** The [while] loop: [bufs] is [this.buffers] on entry. *)
Fixpoint getStringFromBuffers_while (bufs : list buffer) (s : session)
  : option jsstring * session :=
  match bufs with
  | [] => (None, s)
  | buffer :: bufs' =>
    match scanBuffer buffer (set_buffers bufs' s) with
    | (Some (retval, unconsumed), s') =>
      (Some retval,
       if (0 <? length unconsumed)%nat
       then set_buffers (unconsumed :: bufs') s' else s')
    | (None, s') => getStringFromBuffers_while bufs' s'
    end
  end.

(** [null] is [None]. *)
Definition getStringFromBuffers (s : session) : option jsstring * session :=
  getStringFromBuffers_while (buffers s) s.

(** [None]: [this.buffers[0]] is undefined and the read of its [[0]] throws. *)
Definition getByteFromBuffers (s : session) : option (jsval * session) :=
  match buffers s with
  | [] => None
  | b0 :: bufs' =>
    let byte := match b0 with [] => undefined | x :: _ => VByte x end in
    Some (byte,
          if (1 <? length b0)%nat then set_buffers (drop 1 b0 :: bufs') s
          else set_buffers bufs' s)
  end.

(** The truth value of [string] in [if (string)]: [null] and the empty string
    are false. *)
Definition truthy (string : option jsstring) : bool :=
  match string with
  | Some (_ :: _) => true
  | _ => false
  end.

(** [readByte] and [readString], over the function that calls a handler. *)
Definition readByte_with (call : cont -> jsval -> action) (handler : cont)
  : action := fun s =>
  if (0 <? length (buffers s))%nat then
    match getByteFromBuffers s with
    | Some (byte, s') => call handler byte s'
    | None => (s, [Throw_TypeError])
    end
  else (set_waiting (Some (Fn_readByte, handler)) s, []).

Definition readString_with (call : cont -> jsval -> action) (handler : cont)
  : action := fun s =>
  let '(string, s') := getStringFromBuffers s in
  if truthy string then
    call handler (VStr (default [] string)) s'
  else (set_waiting (Some (Fn_readString, handler)) s', []).

Definition reader_with (call : cont -> jsval -> action) (f : reader)
  : cont -> action :=
  match f with
  | Fn_readString => readString_with call
  | Fn_readByte => readByte_with call
  end.

(** *** The command queue *)

(** [this.queue.pop()]: the last element and the rest. *)
Definition pop {A} (l : list A) : option (A * list A) :=
  match rev l with
  | [] => None
  | x :: r => Some (x, rev r)
  end.

(** The first lines of [execute]: a busy session queues the call at the front
    ([unshift]); a free one becomes busy and writes the command. The callback
    of the write starts the chain of readers ([W_chain]). *)
Definition execute (query : jsstring) (handler : option handler) : action :=
  fun s =>
    let handler := default Fn_defaultHandler handler in
    if busy s then
      (set_queue ({| thunk_query := query; thunk_handler := handler |} :: queue s) s,
       [])
    else
      (update (set_busy true) >>> writeStrings [query] (W_chain query handler)) s.

(** Calling a queued thunk. *)
Definition run_thunk (t : thunk) : action :=
  execute (thunk_query t) (Some (thunk_handler t)).

Definition checkQueue : action :=
  update (set_busy false) >>>
  (fun s =>
     match pop (queue s) with
     | Some (t, q) => (update (set_queue q) >>> run_thunk t) s
     | None => skip s
     end).

Definition defaultHandler (result info code : jsval) : action :=
  emit (Emit_result result info code).

(** [handler.call(this, args...)]: a parameter without argument is
    [undefined]. *)
Definition call_handler (h : handler) (args : list jsval) : action :=
  match h with
  | Fn_defaultHandler =>
    defaultHandler (nth 0 args undefined) (nth 1 args undefined)
      (nth 2 args undefined)
  | Fn_callback id => emit (Handler_call id args)
  end.

(** [code == 0] for what [readByte] yields. *)
Definition is_zero (code : option byte) : bool :=
  match code with
  | Some b => Byte.eqb b x00
  | None => false
  end.

Definition query_failed (query info : jsstring) : jsstring :=
  js "BaseX query failed" ++ [10] ++ js "query: " ++ query ++ [10] ++
  js "message: " ++ info.

(** [invokeHandler] of [execute(query, handler)]; [code] is a byte or
    undefined ([None]). *)
Definition invokeHandler (query : jsstring) (handler : handler)
    (result info : jsstring) (code : option byte) : action :=
  if is_zero code then
    call_handler handler [VStr result; VStr info] >>> checkQueue
  else
    emit (Emit_error (query_failed query info)).

(** [handler.apply(session, args)] at the end of the chain of [execute]: the
    chain is (readString, readString, readByte), so [args] is two strings and
    what [readByte] gave. No other shape reaches it; the model stops there. *)
Definition apply_invokeHandler (query : jsstring) (handler : handler)
    (args : list jsval) : action :=
  match args with
  | [VStr result; VStr info; VByte code] =>
    invokeHandler query handler result info (Some code)
  | [VStr result; VStr info; undefined] =>
    invokeHandler query handler result info None
  | _ => skip
  end.

(** *** The chain of readers *)

(** [maybeInvokeNext(arg)] of [chain], with the arrays [args] and [functions]
    of its closure as they are when it is called. *)
Fixpoint maybeInvokeNext (query : jsstring) (h : handler)
    (functions : list reader) (args : list jsval) (arg : jsval)
    {struct functions} : action :=
  let args := args ++ [arg] in
  match functions with
  | f :: functions' =>
    reader_with
      (fun k v =>
         match k with
         | K_maybeInvokeNext query' h' args' functions'' =>
           maybeInvokeNext query' h' functions'' args' v
         | _ => skip
         end)
      f (K_maybeInvokeNext query h args functions')
  | [] => apply_invokeHandler query h args
  end.

(** Calling a continuation with the value read. *)
Definition invoke (k : cont) (arg : jsval) : action :=
  match k with
  | K_handshake =>
    (* function(timestamp) { this.writeStrings(user, md5(md5(password) + timestamp), this.getLoginStatus) } *)
    match arg with
    | VStr timestamp =>
      fun s =>
        writeStrings
          [user (options s); md5 (md5 (password (options s)) ++ timestamp)]
          W_getLoginStatus s
    | _ => skip
    end
  | K_loginStatus =>
    (* function(loginStatus) { if (loginStatus == 0) ... } *)
    match arg with
    | VByte loginStatus =>
      if is_zero (Some loginStatus) then checkQueue >>> emit Emit_loggedIn
      else emit (Emit_error (js "authorization failed"))
    | undefined => emit (Emit_error (js "authorization failed"))
    | VStr _ => skip
    end
  | K_maybeInvokeNext query h args functions =>
    maybeInvokeNext query h functions args arg
  end.

Definition readByte : cont -> action := readByte_with invoke.
Definition readString : cont -> action := readString_with invoke.

(** [chain(invokeHandler, first, functions...)] *)
Definition chain (query : jsstring) (h : handler) (first : reader)
    (functions : list reader) : action :=
  reader_with invoke first (K_maybeInvokeNext query h [] functions).

Definition popAndInvokeHandler (arg : jsval) : action := fun s =>
  match waiting s with
  | Some (_, handler) => invoke handler arg (set_waiting None s)
  | None => (set_waiting None s, [Throw_TypeError])
  end.

Definition handleData (data : buffer) : action := fun s =>
  let s := set_buffers (buffers s ++ [data]) s in
  match waiting s with
  | Some (Fn_readString, _) =>
    let '(string, s') := getStringFromBuffers s in
    match string with
    | Some str => popAndInvokeHandler (VStr str) s'
    | None => (s', [])
    end
  | Some (Fn_readByte, _) =>
    match getByteFromBuffers s with
    | Some (byte, s') => popAndInvokeHandler byte s'
    | None => (s, [Throw_TypeError])
    end
  | None => (s, [])
  end.

Definition performHandshake : action := readString K_handshake.

Definition getLoginStatus : action := readByte K_loginStatus.

(** *** The event loop *)

(** What happens to a session: the socket connects, delivers [data], flushes
    the oldest write (its callback runs) or ends; the program calls
    [execute]. Each is handled to completion before the next. *)
Inductive event :=
  | Socket_connect
  | Socket_data (data : buffer)
  | Socket_written
  | Socket_end
  | Call_execute (query : jsstring) (handler : option handler).

Definition run_callback (cb : write_callback) : action :=
  match cb with
  | W_getLoginStatus => getLoginStatus
  | W_chain query h =>
    chain query h Fn_readString [Fn_readString; Fn_readByte]
  end.

Definition step (e : event) : action :=
  match e with
  | Socket_connect => performHandshake
  | Socket_data data => handleData data
  | Socket_written =>
    fun s =>
      match written s with
      | cb :: rest => (update (set_written rest) >>> run_callback cb) s
      | [] => skip s
      end
  | Socket_end => update (set_busy true)
  | Call_execute query handler => execute query handler
  end.

Fixpoint run (es : list event) : action :=
  match es with
  | [] => skip
  | e :: es' => step e >>> run es'
  end.

(** ** The wire format of the server *)

(** What the protocol makes the server send for a string: its bytes with 00
    and FF preceded by FF, and a 00 after them. *)
Definition escape (bs : buffer) : buffer :=
  flat_map (fun b =>
              if Byte.eqb b xff || Byte.eqb b x00 then [xff; b] else [b]) bs.

Definition frame (str : jsstring) : buffer :=
  escape (utf8_encode str) ++ [x00].

(** A reply to a command: result, info, status byte. *)
Definition reply (result info : jsstring) (code : byte) : buffer :=
  frame result ++ frame info ++ [code].

(** A well-formed string: scalar values only (no lone surrogate). *)
Definition wf_string (str : jsstring) : Prop := Forall scalar str.

(** The state of the string accumulator is usable: it has room or can grow. *)
Definition accumulator_ok (s : session) : Prop :=
  (0 < length (stringBuffer s))%nat /\
  (stringBufferOffset s <= length (stringBuffer s))%nat.

(** The bytes accumulated for the string being read. *)
Definition accumulated (s : session) : buffer :=
  take (stringBufferOffset s) (stringBuffer s).

(** A session with nothing buffered, no string begun and no read pending. *)
Definition quiet (s : session) : Prop :=
  buffers s = [] /\ inEscape s = false /\ stringBufferOffset s = 0%nat /\
  accumulator_ok s.

(** [quiet], decided. *)
Definition quietb (s : session) : bool :=
  match buffers s with [] => true | _ => false end &&
  negb (inEscape s) &&
  (stringBufferOffset s =? 0)%nat &&
  (0 <? length (stringBuffer s))%nat &&
  (stringBufferOffset s <=? length (stringBuffer s))%nat.

(** ** Definitions used to state the properties *)

(** A session with the three fields of the decoder replaced. *)
Definition decoder_at (sb : buffer) (off : nat) (esc : bool) (s : session)
  : session :=
  {| options := options s; stringBuffer := sb; stringBufferOffset := off;
     inEscape := esc; waiting := waiting s; buffers := buffers s;
     busy := busy s; queue := queue s; written := written s |}.

(** The accumulator after [pushToStringBuffer] made room at offset [n]. *)
Definition grown (sb : buffer) (n : nat) : buffer :=
  if (length sb =? n)%nat then Buffer_copy sb (new_Buffer (n * 2)) else sb.

(** One byte per arrival event. *)
Definition bytewise (bs : buffer) : list event :=
  map (fun b => Socket_data [b]) bs.

(** A call [execute(query, handler)], the event it is and the thunk it queues
    on a busy session. *)
Definition call (c : jsstring * option handler) : event :=
  Call_execute (fst c) (snd c).

Definition thunk_of (c : jsstring * option handler) : thunk :=
  {| thunk_query := fst c; thunk_handler := default Fn_defaultHandler (snd c) |}.

(** A command together with the successful reply the server gives it. *)
Record exchange := {
  x_query : jsstring;
  x_handler : option handler;
  x_result : jsstring;
  x_info : jsstring
}.

Definition x_call (x : exchange) : jsstring * option handler :=
  (x_query x, x_handler x).

(** The server's part of an exchange: the write is flushed, then the reply
    arrives in one buffer. *)
Definition served (x : exchange) : list event :=
  [Socket_written; Socket_data (reply (x_result x) (x_info x) x00)].

(** The reply can be read to its end: well-formed strings, and an info
    string that [readString] does not take for missing. *)
Definition answerable (x : exchange) : Prop :=
  wf_string (x_result x) /\ wf_string (x_info x) /\ x_info x <> [].

(** What a successful command makes its handler do. *)
Definition handler_outputs (h : handler) (result info : jsstring)
  : list output :=
  match h with
  | Fn_defaultHandler => [Emit_result (VStr result) (VStr info) undefined]
  | Fn_callback id => [Handler_call id [VStr result; VStr info]]
  end.

(** A string as the client puts it on the wire: its UTF-8 bytes and a zero. *)
Definition terminated (str : jsstring) : buffer := utf8_encode str ++ [x00].

(** What the session does for an exchange, start to end: the command is
    written, later its handler gets the reply. *)
Definition completes (x : exchange) : list output :=
  Socket_write (terminated (x_query x))
    :: handler_outputs (default Fn_defaultHandler (x_handler x))
         (x_result x) (x_info x).

(** Some output reports a failure. *)
Definition is_failure (o : output) : bool :=
  match o with
  | Emit_error _ | Throw_TypeError => true
  | _ => false
  end.

Definition reports_failure (outs : list output) : Prop :=
  Exists (fun o => is_failure o = true) outs.

(** *** Sample sessions *)

(** Options with a string buffer of two bytes, so that it has to grow. *)
Definition small_options : options_t := {|
  user := js "admin";
  password := js "admin";
  initialStringBufferSize := 2
|}.

(** A session that has logged in: the nonce abc123 came, the login was
    written and flushed, the status byte 0 came. *)
Definition logged_in (o : options_t) : session :=
  fst (run [Socket_connect; Socket_data (frame (js "abc123"));
            Socket_written; Socket_data [x00]]
         (new_Session o)).

(** A session on which the command [xquery 1] runs: written, not yet
    flushed. *)
Definition in_flight (o : options_t) : session :=
  fst (run [Call_execute (js "xquery 1") (Some (Fn_callback 0))] (logged_in o)).

Definition lower_hex (c : codepoint) : Prop :=
  48 <= c <= 57 \/ 97 <= c <= 102.

(** Reading [n] strings in a row from the chain. *)
Fixpoint read_strings (n : nat) (s : session)
  : list (option jsstring) * session :=
  match n with
  | O => ([], s)
  | S n' =>
    let '(string, s1) := getStringFromBuffers s in
    let '(strings, s2) := read_strings n' s1 in
    (string :: strings, s2)
  end.

(** What the decoder relies on between events: a usable accumulator, and no
    empty buffer in the chain. *)
Definition well_kept (s : session) : Prop :=
  accumulator_ok s /\ Forall (fun b : buffer => b <> []) (buffers s).

(** The socket delivers no empty buffer. *)
Definition nonempty_data (e : event) : Prop :=
  match e with
  | Socket_data data => data <> []
  | _ => True
  end.

(** An action that keeps [well_kept] and throws no TypeError. *)
Definition sound (a : action) : Prop :=
  forall s : session,
    (well_kept s -> well_kept (fst (a s))) /\
    ~ In Throw_TypeError (snd (a s)).

(** A session on which nothing can happen any more: it is busy, no reader
    is registered and no write is waiting to be flushed. *)
Definition stalled (s : session) : Prop :=
  busy s = true /\ waiting s = None /\ written s = [].

(** ** The platform: lemmas *)

Lemma Z_of_byte_of_Z (z : Z) : 0 <= z < 256 -> Z_of_byte (byte_of_Z z) = z.
Proof.
  intros Hz. unfold Z_of_byte, byte_of_Z.
  rewrite Z.mod_small by lia.
  destruct (Byte.of_N (Z.to_N z)) as [b|] eqn:E.
  - apply Byte.to_of_N in E. lia.
  - apply Byte.of_N_None_iff in E. lia.
Qed.

Lemma Z_of_byte_range (b : byte) : 0 <= Z_of_byte b < 256.
Proof.
  unfold Z_of_byte. pose proof (Byte.to_N_bounded b). lia.
Qed.

Lemma Z_of_byte_inj (a b : byte) : Z_of_byte a = Z_of_byte b -> a = b.
Proof.
  unfold Z_of_byte. intros H.
  assert (E : Byte.to_N a = Byte.to_N b) by lia.
  apply (f_equal Byte.of_N) in E. rewrite !Byte.of_to_N in E. congruence.
Qed.

Ltac bool_arith :=
  repeat match goal with
         | |- context [andb _ _ = true] => rewrite andb_true_iff
         | |- context [andb _ _ = false] => rewrite andb_false_iff
         | |- context [orb _ _ = false] => rewrite orb_false_iff
         | |- context [negb _ = true] => rewrite negb_true_iff
         | |- context [(_ <=? _) = true] => rewrite Z.leb_le
         | |- context [(_ <=? _) = false] => rewrite Z.leb_gt
         | |- context [(_ <? _) = true] => rewrite Z.ltb_lt
         | |- context [(_ <? _) = false] => rewrite Z.ltb_ge
         end.

Ltac range := Z.div_mod_to_equations; lia.

(** Decoding undoes encoding, one scalar value at a time. *)
Lemma utf8_decode_encode_cp (c : codepoint) (r : buffer) :
  scalar c -> utf8_decode (utf8_encode_cp c ++ r) = c :: utf8_decode r.
Proof.
  unfold scalar, is_surrogate. intros [Hc Hs].
  assert (Hsur : c < 0xD800 \/ 0xDFFF < c).
  { apply andb_false_iff in Hs. revert Hs. bool_arith. lia. }
  clear Hs. unfold utf8_encode_cp, is_surrogate.
  replace ((c <? 0) || (1114112 <=? c) || (55296 <=? c) && (c <=? 57343))
    with false
    by (symmetry; bool_arith; lia).
  destruct (Z.ltb_spec c 0x80) as [H1|H1].
  { cbn [app utf8_decode]. rewrite Z_of_byte_of_Z by lia.
    replace (c <? 128) with true by (symmetry; bool_arith; lia). reflexivity. }
  destruct (Z.ltb_spec c 0x800) as [H2|H2].
  { cbn [app utf8_decode]. rewrite !Z_of_byte_of_Z by range.
    replace (192 + c / 64 <? 128) with false by (symmetry; bool_arith; range).
    replace (ok2 (192 + c / 64) (128 + c mod 64)) with true
      by (symmetry; unfold ok2, is_cont; bool_arith; range).
    f_equal. unfold cp2. range. }
  destruct (Z.ltb_spec c 0x10000) as [H3|H3].
  { cbn [app utf8_decode]. rewrite !Z_of_byte_of_Z by range.
    replace (224 + c / 4096 <? 128) with false by (symmetry; bool_arith; range).
    replace (ok2 (224 + c / 4096) (128 + c / 64 mod 64)) with false
      by (symmetry; unfold ok2, is_cont; bool_arith; range).
    assert (E : cp3 (224 + c / 4096) (128 + c / 64 mod 64) (128 + c mod 64) = c)
      by (unfold cp3; range).
    replace (ok3 (224 + c / 4096) (128 + c / 64 mod 64) (128 + c mod 64))
      with true
      by (symmetry; unfold ok3, is_cont, is_surrogate; rewrite E; bool_arith;
          range).
    f_equal. exact E. }
  cbn [app utf8_decode]. rewrite !Z_of_byte_of_Z by range.
  replace (240 + c / 262144 <? 128) with false by (symmetry; bool_arith; range).
  replace (ok2 (240 + c / 262144) (128 + c / 4096 mod 64)) with false
    by (symmetry; unfold ok2, is_cont; bool_arith; range).
  replace (ok3 (240 + c / 262144) (128 + c / 4096 mod 64)
             (128 + c / 64 mod 64)) with false
    by (symmetry; unfold ok3, is_cont; bool_arith; range).
  assert (E : cp4 (240 + c / 262144) (128 + c / 4096 mod 64)
                (128 + c / 64 mod 64) (128 + c mod 64) = c)
    by (unfold cp4; range).
  replace (ok4 (240 + c / 262144) (128 + c / 4096 mod 64)
             (128 + c / 64 mod 64) (128 + c mod 64)) with true
    by (symmetry; unfold ok4, is_cont; rewrite E; bool_arith; range).
  f_equal. exact E.
Qed.

Lemma utf8_decode_encode (str : jsstring) :
  wf_string str -> utf8_decode (utf8_encode str) = str.
Proof.
  induction 1 as [|c str Hc _ IH]; [reflexivity|].
  unfold utf8_encode. cbn [flat_map].
  rewrite utf8_decode_encode_cp by exact Hc.
  f_equal. exact IH.
Qed.
(** ** Writing: [writeStrings] fills its buffer exactly *)

Lemma blit_app (e a z : buffer) :
  blit e (length a) (a ++ z) = a ++ e ++ drop (length e) z.
Proof.
  unfold blit. rewrite take_app_length, drop_app_add. reflexivity.
Qed.

Lemma Buffer_write_fits (str : jsstring) : forall a z : buffer,
  (length (utf8_encode str) <= length z)%nat ->
  Buffer_write str (length a) (a ++ z) =
  (a ++ utf8_encode str ++ drop (length (utf8_encode str)) z,
   length (utf8_encode str)).
Proof.
  induction str as [|c str IH]; intros a z Hfit.
  - simpl. rewrite drop_0. reflexivity.
  - cbn [Buffer_write]. unfold utf8_encode in *. cbn [flat_map] in *.
    set (e := utf8_encode_cp c) in *.
    rewrite length_app in Hfit.
    replace (length a + length e <=? length (a ++ z))%nat with true
      by (symmetry; apply Nat.leb_le; rewrite length_app; lia).
    rewrite blit_app.
    replace (length a + length e)%nat with (length (a ++ e))
      by (rewrite length_app; reflexivity).
    rewrite (app_assoc a e).
    rewrite IH by (rewrite length_drop; lia).
    rewrite drop_drop, length_app, <- !app_assoc. reflexivity.
Qed.

Lemma insert_head (x : byte) (l : buffer) :
  (0 < length l)%nat -> <[0%nat := x]> l = x :: drop 1 l.
Proof. destruct l; simpl; [lia | reflexivity]. Qed.

Lemma writeStrings_fill_spec (strs : list jsstring) : forall a z : buffer,
  (length (flat_map terminated strs) <= length z)%nat ->
  writeStrings_fill strs (length a) (a ++ z) =
  a ++ flat_map terminated strs ++ drop (length (flat_map terminated strs)) z.
Proof.
  induction strs as [|str strs IH]; intros a z Hfit.
  - simpl. rewrite drop_0. reflexivity.
  - cbn [writeStrings_fill flat_map] in *.
    unfold terminated at 1 in Hfit. rewrite !length_app in Hfit. simpl in Hfit.
    rewrite Buffer_write_fits by lia.
    set (u := utf8_encode str) in *.
    assert (E : <[(length a + length u)%nat := x00]> (a ++ u ++ drop (length u) z)
                = ((a ++ u) ++ [x00]) ++ drop (S (length u)) z).
    { rewrite (app_assoc a u (drop _ _)).
      replace (length a + length u)%nat with (length (a ++ u) + 0)%nat
        by (rewrite length_app; lia).
      rewrite (insert_app_r (a ++ u)).
      rewrite insert_head by (rewrite length_drop; lia).
      rewrite drop_drop, <- !app_assoc.
      replace (length u + 1)%nat with (S (length u)) by lia. reflexivity. }
    rewrite E.
    replace (S (length a + length u)) with (length ((a ++ u) ++ [x00]))
      by (rewrite !length_app; simpl; lia).
    rewrite IH by (rewrite length_drop; lia).
    rewrite drop_drop. change (terminated str) with (u ++ [x00]).
    rewrite !length_app, <- !app_assoc. simpl.
    repeat f_equal. lia.
Qed.

Lemma bufferSize_spec (strs : list jsstring) : forall n : nat,
  fold_left (fun n str => (n + (Buffer_byteLength str + 1))%nat) strs n =
  (n + length (flat_map terminated strs))%nat.
Proof.
  induction strs as [|str strs IH]; intros n; simpl.
  - lia.
  - rewrite IH. unfold terminated at 2, Buffer_byteLength.
    rewrite !length_app. simpl. lia.
Qed.

(** The buffer handed to the socket is each string's UTF-8 bytes and a zero,
    in order. *)
Lemma writeStrings_buffer_spec (strs : list jsstring) :
  writeStrings_buffer strs = flat_map terminated strs.
Proof.
  unfold writeStrings_buffer. rewrite bufferSize_spec. simpl.
  pose proof (writeStrings_fill_spec strs []
                (new_Buffer (length (flat_map terminated strs)))) as H.
  simpl in H. rewrite H by (unfold new_Buffer; rewrite length_replicate; lia).
  unfold new_Buffer. rewrite drop_replicate, Nat.sub_diag. simpl.
  apply app_nil_r.
Qed.

(** ** The decoder *)

Lemma quietb_quiet (s : session) : quietb s = true -> quiet s.
Proof.
  unfold quietb, quiet, accumulator_ok. rewrite !andb_true_iff.
  intros ((((Hb & Hesc) & Hoff) & Hpos) & Hle).
  apply Nat.eqb_eq in Hoff. apply Nat.ltb_lt in Hpos. apply Nat.leb_le in Hle.
  apply negb_true_iff in Hesc.
  destruct (buffers s); [auto | discriminate].
Qed.

Lemma decoder_at_id (s : session) :
  decoder_at (stringBuffer s) (stringBufferOffset s) (inEscape s) s = s.
Proof. destruct s; reflexivity. Qed.

Lemma pushToStringBuffer_decoder (b : byte) (s : session) :
  pushToStringBuffer b s =
  decoder_at
    (<[stringBufferOffset s := b]> (grown (stringBuffer s) (stringBufferOffset s)))
    (S (stringBufferOffset s)) (inEscape s) s.
Proof.
  unfold pushToStringBuffer, grown.
  destruct (length (stringBuffer s) =? stringBufferOffset s)%nat; reflexivity.
Qed.

Lemma grown_room (sb : buffer) (n : nat) :
  (0 < length sb)%nat -> (n <= length sb)%nat ->
  (n < length (grown sb n))%nat /\ take n (grown sb n) = take n sb.
Proof.
  intros Hpos Hle. unfold grown.
  destruct (Nat.eqb_spec (length sb) n) as [E|E].
  - unfold Buffer_copy, new_Buffer.
    rewrite length_replicate, drop_replicate.
    rewrite take_ge by lia.
    rewrite length_app, length_replicate.
    split; [lia|].
    rewrite take_app_le by lia. reflexivity.
  - split; [lia | reflexivity].
Qed.

(** A pushed byte is appended to the accumulated bytes as it is, whatever its
    value, and the accumulator stays usable. *)
Lemma pushToStringBuffer_spec (b : byte) (s : session) :
  accumulator_ok s ->
  accumulated (pushToStringBuffer b s) = accumulated s ++ [b] /\
  accumulator_ok (pushToStringBuffer b s).
Proof.
  intros [Hpos Hle]. rewrite pushToStringBuffer_decoder.
  unfold accumulated, accumulator_ok. simpl.
  destruct (grown_room (stringBuffer s) (stringBufferOffset s) Hpos Hle)
    as [Hlt Htake].
  rewrite length_insert. split; [|lia].
  erewrite take_S_r by (apply list_lookup_insert_eq; exact Hlt).
  rewrite take_insert_ge by lia. rewrite Htake. reflexivity.
Qed.

(** Scanning changes the decoder's three fields and nothing else. *)
Lemma scanBuffer_frame (rest : buffer) : forall s : session,
  exists sb n e, snd (scanBuffer rest s) = decoder_at sb n e s.
Proof.
  induction rest as [|byte rest IH]; intros s; cbn [scanBuffer].
  - exists (stringBuffer s), (stringBufferOffset s), (inEscape s).
    symmetry. apply decoder_at_id.
  - destruct (inEscape s).
    { destruct (IH (set_inEscape false (pushToStringBuffer byte s)))
        as (sb & n & e & H).
      rewrite H, pushToStringBuffer_decoder. eauto. }
    destruct (Byte.eqb byte xff).
    { destruct (IH (set_inEscape true s)) as (sb & n & e & H).
      rewrite H. eauto. }
    destruct (Byte.eqb byte x00).
    { simpl. exists (stringBuffer s), 0%nat, (inEscape s). reflexivity. }
    destruct (IH (pushToStringBuffer byte s)) as (sb & n & e & H).
    rewrite H, pushToStringBuffer_decoder. eauto.
Qed.

Lemma scanBuffer_fields (rest : buffer) (s : session) :
  let s' := snd (scanBuffer rest s) in
  options s' = options s /\ waiting s' = waiting s /\
  buffers s' = buffers s /\ busy s' = busy s /\ queue s' = queue s /\
  written s' = written s.
Proof.
  destruct (scanBuffer_frame rest s) as (sb & n & e & H).
  simpl. rewrite H. simpl. auto 10.
Qed.

(** Scanning does not look at the fields outside the decoder. *)
Lemma scanBuffer_set_buffers (rest : buffer) : forall (s : session) bufs,
  scanBuffer rest (set_buffers bufs s) =
  (fst (scanBuffer rest s), set_buffers bufs (snd (scanBuffer rest s))).
Proof.
  induction rest as [|byte rest IH]; intros s bufs; cbn [scanBuffer].
  - reflexivity.
  - change (inEscape (set_buffers bufs s)) with (inEscape s).
    assert (Hpush : forall b, pushToStringBuffer b (set_buffers bufs s)
                         = set_buffers bufs (pushToStringBuffer b s)).
    { intros b. rewrite !pushToStringBuffer_decoder. reflexivity. }
    destruct (inEscape s).
    { rewrite Hpush.
      change (set_inEscape false (set_buffers bufs (pushToStringBuffer byte s)))
        with (set_buffers bufs (set_inEscape false (pushToStringBuffer byte s))).
      apply IH. }
    destruct (Byte.eqb byte xff).
    { change (set_inEscape true (set_buffers bufs s))
        with (set_buffers bufs (set_inEscape true s)).
      apply IH. }
    destruct (Byte.eqb byte x00); [reflexivity|].
    rewrite Hpush. apply IH.
Qed.

(** A buffer that ends without a terminator: scanning goes on in the next. *)
Lemma scanBuffer_app_None (b1 : buffer) : forall (b2 : buffer) (s s1 : session),
  scanBuffer b1 s = (None, s1) ->
  scanBuffer (b1 ++ b2) s = scanBuffer b2 s1.
Proof.
  induction b1 as [|byte b1 IH]; intros b2 s s1; cbn [scanBuffer app].
  - intros [= ->]. reflexivity.
  - destruct (inEscape s); [apply IH|].
    destruct (Byte.eqb byte xff); [apply IH|].
    destruct (Byte.eqb byte x00); [discriminate|]. apply IH.
Qed.

(** A terminator found: what follows it is left unread. *)
Lemma scanBuffer_app_Some (b1 : buffer) :
  forall (b2 : buffer) (s s1 : session) str rest,
  scanBuffer b1 s = (Some (str, rest), s1) ->
  scanBuffer (b1 ++ b2) s = (Some (str, rest ++ b2), s1).
Proof.
  induction b1 as [|byte b1 IH]; intros b2 s s1 str rest; cbn [scanBuffer app].
  - discriminate.
  - destruct (inEscape s); [apply IH|].
    destruct (Byte.eqb byte xff); [apply IH|].
    destruct (Byte.eqb byte x00); [|apply IH].
    intros [= <- <- <-]. reflexivity.
Qed.

Lemma scanBuffer_prefix_None (b1 b2 : buffer) (s s2 : session) :
  scanBuffer (b1 ++ b2) s = (None, s2) ->
  exists s1, scanBuffer b1 s = (None, s1) /\ scanBuffer b2 s1 = (None, s2).
Proof.
  intros H. destruct (scanBuffer b1 s) as [[[str rest]|] s1] eqn:E.
  - rewrite (scanBuffer_app_Some _ _ _ _ _ _ E) in H. discriminate.
  - exists s1. split; [reflexivity|].
    rewrite (scanBuffer_app_None _ _ _ _ E) in H. exact H.
Qed.

Lemma scanBuffer_terminator (rest : buffer) (s : session) :
  inEscape s = false ->
  scanBuffer (x00 :: rest) s =
  (Some (utf8_decode (accumulated s), rest), set_stringBufferOffset 0 s).
Proof. intros H. cbn [scanBuffer]. rewrite H. reflexivity. Qed.

(** The escaped bytes of [bs], scanned outside an escape, append [bs] to the
    accumulated bytes and end outside an escape. *)
Lemma scanBuffer_escape (bs : buffer) : forall s : session,
  inEscape s = false -> accumulator_ok s ->
  exists sb,
    scanBuffer (escape bs) s =
      (None, decoder_at sb (stringBufferOffset s + length bs) false s) /\
    take (stringBufferOffset s + length bs) sb = accumulated s ++ bs /\
    (0 < length sb)%nat /\ (stringBufferOffset s + length bs <= length sb)%nat.
Proof.
  induction bs as [|b bs IH]; intros s Hesc Hok.
  - exists (stringBuffer s). simpl. rewrite Nat.add_0_r, app_nil_r.
    rewrite <- Hesc at 1. rewrite decoder_at_id.
    destruct Hok. auto.
  - destruct (pushToStringBuffer_spec b s Hok) as [Hacc Hok'].
    assert (Hstep : scanBuffer (escape (b :: bs)) s =
                    scanBuffer (escape bs)
                      (set_inEscape false (pushToStringBuffer b s))).
    { unfold escape. cbn [flat_map]. fold (escape bs).
      destruct (Byte.eqb b xff) eqn:Eff; simpl orb; cbn [app scanBuffer].
      - rewrite Hesc. simpl. rewrite !pushToStringBuffer_decoder. reflexivity.
      - destruct (Byte.eqb b x00) eqn:E00; cbn [app scanBuffer].
        + rewrite Hesc. simpl. rewrite !pushToStringBuffer_decoder.
          reflexivity.
        + rewrite Hesc, Eff, E00.
          rewrite !pushToStringBuffer_decoder, Hesc. reflexivity. }
    rewrite Hstep.
    destruct (IH (set_inEscape false (pushToStringBuffer b s)))
      as (sb & Hscan & Htake & Hpos & Hle); [reflexivity | exact Hok' |].
    exists sb.
    change (accumulated (set_inEscape false (pushToStringBuffer b s)))
      with (accumulated (pushToStringBuffer b s)) in Htake.
    rewrite Hacc, <- app_assoc in Htake.
    rewrite Hscan. clear Hscan.
    rewrite pushToStringBuffer_decoder in *.
    simpl in Htake, Hle. simpl.
    rewrite Nat.add_succ_r, Hesc. auto.
Qed.

(** ** Data events while a string is awaited *)

Lemma run_app (es1 es2 : list event) (s : session) :
  run (es1 ++ es2) s =
  (let '(s1, o1) := run es1 s in
   let '(s2, o2) := run es2 s1 in
   (s2, o1 ++ o2)).
Proof.
  revert s. induction es1 as [|e es1 IH]; intros s; cbn [run app].
  - unfold skip. destruct (run es2 s). reflexivity.
  - unfold andthen. destruct (step e s) as [s1 o1]. rewrite IH.
    destruct (run es1 s1) as [s2 o2]. destruct (run es2 s2) as [s3 o3].
    rewrite app_assoc. reflexivity.
Qed.

Lemma run_single (e : event) (s : session) : run [e] s = step e s.
Proof.
  cbn [run]. unfold andthen, skip. destruct (step e s) as [s1 o1].
  rewrite app_nil_r. reflexivity.
Qed.

Lemma set_buffers_nil (s : session) (bufs : list buffer) :
  buffers s = [] -> set_buffers [] (set_buffers bufs s) = s.
Proof. destruct s; simpl; intros ->; reflexivity. Qed.

(** A data event while [readString] waits and nothing is buffered: the new
    buffer is scanned; a terminator in it calls the waiting handler with the
    string, which may be empty, and leaves what follows in the chain. *)
Lemma handleData_readString (data : buffer) (s : session) (k : cont) :
  waiting s = Some (Fn_readString, k) -> buffers s = [] ->
  handleData data s =
  match scanBuffer data s with
  | (None, s') => (s', [])
  | (Some (str, rest), s') =>
    invoke k (VStr str)
      (set_waiting None
         (if (0 <? length rest)%nat then set_buffers [rest] s' else s'))
  end.
Proof.
  intros Hw Hb. unfold handleData.
  change (waiting (set_buffers (buffers s ++ [data]) s)) with (waiting s).
  rewrite Hw. unfold getStringFromBuffers.
  change (buffers (set_buffers (buffers s ++ [data]) s))
    with (buffers s ++ [data]).
  rewrite Hb. cbn [app getStringFromBuffers_while].
  rewrite set_buffers_nil by exact Hb.
  pose proof (scanBuffer_fields data s) as Hf. simpl in Hf.
  destruct (scanBuffer data s) as [[[str rest]|] s'] eqn:E; [|reflexivity].
  simpl in Hf. destruct Hf as (_ & Hw' & _).
  unfold popAndInvokeHandler.
  destruct (0 <? length rest)%nat; simpl; rewrite Hw', Hw; reflexivity.
Qed.

(** Buffers that together hold no terminator are consumed into the
    accumulator, whatever the cuts between them; nothing is called. *)
Lemma feed_None (chunks : list buffer) : forall (s s' : session) (k : cont),
  waiting s = Some (Fn_readString, k) -> buffers s = [] ->
  scanBuffer (concat chunks) s = (None, s') ->
  run (map Socket_data chunks) s = (s', []).
Proof.
  induction chunks as [|c chunks IH]; intros s s' k Hw Hb Hscan.
  - simpl in *. unfold skip. congruence.
  - cbn [concat] in Hscan.
    destruct (scanBuffer_prefix_None _ _ _ _ Hscan) as (s1 & H1 & H2).
    cbn [map run]. unfold andthen. cbn [step].
    rewrite (handleData_readString c s k Hw Hb), H1.
    pose proof (scanBuffer_fields c s) as Hf. rewrite H1 in Hf. simpl in Hf.
    destruct Hf as (_ & Hw1 & Hb1 & _).
    rewrite (IH s1 s' k); [reflexivity | congruence | congruence | exact H2].
Qed.

(** Fragmentation invariance of the decoder: the frame of a byte string [bs],
    cut into buffers at any places, calls the waiting handler once, at the
    last buffer, with the decoding of [bs]. *)
Lemma feed_frame (bs : buffer) (chunks : list buffer) (c : buffer)
    (s : session) (k : cont) :
  waiting s = Some (Fn_readString, k) -> quiet s ->
  concat chunks ++ c = escape bs ++ [x00] -> c <> [] ->
  exists sb,
    (0 < length sb)%nat /\
    run (map Socket_data (chunks ++ [c])) s =
    invoke k (VStr (utf8_decode bs)) (set_waiting None (set_stringBuffer sb s)).
Proof.
  intros Hw (Hb & Hesc & Hoff & Hok) Hcat Hc.
  destruct (exists_last Hc) as (c' & z & ->).
  rewrite app_assoc in Hcat. apply app_inj_tail in Hcat as [Hcat ->].
  destruct (scanBuffer_escape bs s Hesc Hok) as (sb & Hscan & Htake & Hpos & _).
  rewrite <- Hcat in Hscan.
  destruct (scanBuffer_prefix_None _ _ _ _ Hscan) as (s1 & H1 & H2).
  exists sb. split; [exact Hpos|].
  rewrite map_app, run_app, (feed_None chunks s s1 k Hw Hb H1).
  cbn [map]. rewrite run_single. cbn [step app].
  pose proof (scanBuffer_fields (concat chunks) s) as Hf.
  rewrite H1 in Hf. simpl in Hf. destruct Hf as (_ & Hw1 & Hb1 & _).
  rewrite (handleData_readString _ s1 k) by congruence.
  rewrite (scanBuffer_app_None _ _ _ _ H2).
  rewrite scanBuffer_terminator by reflexivity.
  assert (Hacc : accumulated s = []) by (unfold accumulated; rewrite Hoff; reflexivity).
  rewrite Hacc in Htake. simpl in Htake.
  unfold accumulated. cbn [decoder_at stringBufferOffset stringBuffer].
  rewrite Htake. simpl.
  replace (set_waiting None
             (set_stringBufferOffset 0
                (decoder_at sb (stringBufferOffset s + length bs) false s)))
    with (set_waiting None (set_stringBuffer sb s))
    by (destruct s; simpl in *; subst; reflexivity).
  destruct (invoke k _ _). reflexivity.
Qed.

(** ** Reading a reply that is already buffered *)

Lemma scanBuffer_frame_rest (str : jsstring) (rest : buffer) (s : session) :
  wf_string str -> inEscape s = false -> stringBufferOffset s = 0%nat ->
  accumulator_ok s ->
  exists sb,
    (0 < length sb)%nat /\
    scanBuffer (frame str ++ rest) s = (Some (str, rest), decoder_at sb 0 false s).
Proof.
  intros Hwf Hesc Hoff Hok.
  destruct (scanBuffer_escape (utf8_encode str) s Hesc Hok)
    as (sb & Hscan & Htake & Hpos & _).
  exists sb. split; [exact Hpos|].
  unfold frame. rewrite <- app_assoc.
  rewrite (scanBuffer_app_None _ _ _ _ Hscan). cbn [app].
  rewrite scanBuffer_terminator by reflexivity.
  unfold accumulated in *. rewrite Hoff in Htake. simpl in Htake.
  cbn [decoder_at stringBufferOffset stringBuffer].
  rewrite Hoff. simpl. rewrite Htake, utf8_decode_encode by exact Hwf.
  reflexivity.
Qed.

Lemma getStringFromBuffers_frame (str : jsstring) (rest : buffer)
    (bufs : list buffer) (s : session) :
  wf_string str -> inEscape s = false -> stringBufferOffset s = 0%nat ->
  accumulator_ok s -> buffers s = (frame str ++ rest) :: bufs ->
  exists sb,
    (0 < length sb)%nat /\
    getStringFromBuffers s =
    (Some str,
     decoder_at sb 0 false
       (set_buffers (if (0 <? length rest)%nat then rest :: bufs else bufs) s)).
Proof.
  intros Hwf Hesc Hoff Hok Hb.
  destruct (scanBuffer_frame_rest str rest s Hwf Hesc Hoff Hok)
    as (sb & Hpos & Hscan).
  exists sb. split; [exact Hpos|].
  unfold getStringFromBuffers. rewrite Hb. cbn [getStringFromBuffers_while].
  rewrite scanBuffer_set_buffers, Hscan. cbn [fst snd].
  destruct (0 <? length rest)%nat; reflexivity.
Qed.

Lemma frame_nonempty (str : jsstring) (rest : buffer) :
  (0 <? length (frame str ++ rest))%nat = true.
Proof.
  apply Nat.ltb_lt. unfold frame. rewrite !length_app. simpl. lia.
Qed.

Lemma pop_snoc {A} (l : list A) (x : A) : pop (l ++ [x]) = Some (x, l).
Proof. unfold pop. rewrite rev_app_distr. simpl. rewrite rev_involutive. reflexivity. Qed.

Lemma pop_nil {A} : pop (@nil A) = None.
Proof. reflexivity. Qed.

(** The write of a command is flushed and its whole reply arrives in one
    buffer: the result, a non-empty info and the status byte are read and
    [invokeHandler] gets them. *)
Lemma served_reply (s : session) (query : jsstring) (h : handler)
    (w : list write_callback) (result info : jsstring) (code : byte) :
  waiting s = None -> written s = W_chain query h :: w -> quiet s ->
  wf_string result -> wf_string info -> info <> [] ->
  exists sb,
    (0 < length sb)%nat /\
    run [Socket_written; Socket_data (reply result info code)] s =
    invokeHandler query h result info (Some code)
      (set_written w (set_stringBuffer sb s)).
Proof.
  intros Hw Hwr (Hb & Hesc & Hoff & Hok) Hres Hinfo Hne.
  (* the flushed write starts the chain; nothing is buffered: it waits *)
  set (s1 := set_waiting
               (Some (Fn_readString,
                      K_maybeInvokeNext query h [] [Fn_readString; Fn_readByte]))
               (set_written w s)).
  assert (H1 : step Socket_written s = (s1, [])).
  { cbn [step]. rewrite Hwr. unfold andthen, update. cbn [run_callback].
    unfold chain. cbn [reader_with]. unfold readString_with.
    unfold getStringFromBuffers. cbn [buffers set_written]. rewrite Hb.
    reflexivity. }
  (* the reply arrives: the result is scanned *)
  destruct (scanBuffer_frame_rest result (frame info ++ [code]) s1 Hres Hesc Hoff Hok)
    as (sb1 & Hpos1 & Hscan1).
  set (s2 := set_waiting None
               (set_buffers [frame info ++ [code]] (decoder_at sb1 0 false s1))).
  assert (Hok2 : accumulator_ok s2).
  { split; simpl; lia. }
  destruct (getStringFromBuffers_frame info [code] [] s2 Hinfo eq_refl eq_refl Hok2 eq_refl)
    as (sb2 & Hpos2 & Hget2).
  exists sb2. split; [exact Hpos2|].
  cbn [run]. unfold andthen at 1. rewrite H1.
  unfold andthen, skip. cbn [step].
  rewrite (handleData_readString _ s1 _ eq_refl Hb).
  unfold reply. rewrite Hscan1, frame_nonempty. fold s2.
  (* maybeInvokeNext with the result: readString finds the info *)
  cbn [invoke maybeInvokeNext reader_with app]. unfold readString_with at 1.
  rewrite Hget2.
  replace (truthy (Some info)) with true by (destruct info; [congruence | reflexivity]).
  cbn [default from_option id]. unfold id.
  (* maybeInvokeNext with the info: readByte finds the status byte *)
  cbn [maybeInvokeNext reader_with app]. unfold readByte_with at 1.
  cbn [buffers decoder_at set_buffers length Nat.ltb Nat.leb].
  unfold getByteFromBuffers.
  cbn [buffers decoder_at set_buffers length Nat.ltb Nat.leb].
  cbn [maybeInvokeNext app apply_invokeHandler].
  replace (set_buffers [] (decoder_at sb2 0 false (set_buffers [[code]] s2)))
    with (set_written w (set_stringBuffer sb2 s))
    by (subst s2 s1; destruct s; simpl in *; subst; reflexivity).
  destruct (invokeHandler query h result info (Some code) _) as [s' o].
  rewrite app_nil_r. reflexivity.
Qed.

(** ** The command queue *)

(** Calls on a busy session are queued at the front, newest first; nothing is
    written and nothing is emitted. *)
Lemma executes_while_busy (calls : list (jsstring * option handler)) :
  forall s : session,
  busy s = true ->
  run (map call calls) s =
  (set_queue (rev (map thunk_of calls) ++ queue s) s, []).
Proof.
  induction calls as [|c calls IH]; intros s Hbusy.
  - simpl. unfold skip. destruct s; reflexivity.
  - cbn [map run]. unfold andthen. cbn [call step]. unfold execute.
    rewrite Hbusy.
    rewrite IH by exact Hbusy.
    cbn [rev map queue set_queue]. rewrite <- app_assoc. reflexivity.
Qed.

Lemma call_handler_outputs (h : handler) (result info : jsstring) (s : session) :
  call_handler h [VStr result; VStr info] s = (s, handler_outputs h result info).
Proof. destruct h; reflexivity. Qed.

Lemma invokeHandler_success (query : jsstring) (h : handler)
    (result info : jsstring) :
  invokeHandler query h result info (Some x00) =
  (call_handler h [VStr result; VStr info] >>> checkQueue).
Proof. reflexivity. Qed.

(** A free session runs a thunk: it becomes busy and writes the command. *)
Lemma run_thunk_free (t : thunk) (s : session) :
  busy s = false ->
  run_thunk t s =
  (set_written (written s ++ [W_chain (thunk_query t) (thunk_handler t)])
     (set_busy true s),
   [Socket_write (terminated (thunk_query t))]).
Proof.
  intros Hfree. unfold run_thunk, execute. rewrite Hfree.
  unfold andthen, update, writeStrings. cbn [default from_option id].
  rewrite writeStrings_buffer_spec. cbn [flat_map]. rewrite app_nil_r.
  reflexivity.
Qed.

(** The commands queued behind a running one are run in the order of their
    calls: each is written when the handler of the one before it has been
    called, and the queue ends empty. *)
Lemma drain (xs : list exchange) :
  forall (x0 : exchange) (h0 : handler) (s : session),
  busy s = true -> waiting s = None ->
  written s = [W_chain (x_query x0) h0] -> quiet s ->
  queue s = rev (map thunk_of (map x_call xs)) ->
  answerable x0 -> Forall answerable xs ->
  exists s',
    run (flat_map served (x0 :: xs)) s =
      (s', handler_outputs h0 (x_result x0) (x_info x0) ++ flat_map completes xs) /\
    busy s' = false /\ queue s' = [] /\ waiting s' = None /\
    written s' = [] /\ quiet s'.
Proof.
  induction xs as [|x1 xs IH]; intros x0 h0 s Hbusy Hw Hwr Hq Hqueue Hx0 Hxs.
  - destruct Hx0 as (Hres & Hinfo & Hne).
    destruct (served_reply s _ h0 [] _ _ x00 Hw Hwr Hq Hres Hinfo Hne)
      as (sb & Hpos & Hrun).
    cbn [flat_map]. rewrite app_nil_r. unfold served. rewrite Hrun.
    rewrite invokeHandler_success. unfold andthen.
    rewrite call_handler_outputs.
    unfold checkQueue, andthen, update.
    cbn [queue set_busy set_written set_stringBuffer]. rewrite Hqueue.
    cbn [map rev pop]. unfold skip.
    eexists. split; [reflexivity|].
    destruct Hq as (Hb & Hesc & Hoff & Hok).
    unfold quiet, accumulator_ok. simpl. repeat split; auto; lia.
  - destruct Hx0 as (Hres & Hinfo & Hne).
    destruct (served_reply s _ h0 [] _ _ x00 Hw Hwr Hq Hres Hinfo Hne)
      as (sb & Hpos & Hrun).
    change (flat_map served (x0 :: x1 :: xs))
      with (served x0 ++ flat_map served (x1 :: xs)).
    rewrite run_app. unfold served at 1. rewrite Hrun.
    rewrite invokeHandler_success. unfold andthen at 1.
    rewrite call_handler_outputs.
    unfold checkQueue. unfold andthen at 1 2. unfold update at 1 2.
    cbn [queue set_busy set_written set_stringBuffer]. rewrite Hqueue.
    cbn [map rev]. rewrite pop_snoc.
    rewrite run_thunk_free by reflexivity.
    destruct Hq as (Hb & Hesc & Hoff & Hok).
    inversion Hxs as [|? ? Hx1 Hxs']; subst.
    edestruct (IH x1 (default Fn_defaultHandler (x_handler x1))) as (s' & Hrun' & Hrest);
      [..| exact Hx1 | exact Hxs' |].
    6: { rewrite Hrun'. exists s'. split; [|exact Hrest].
         cbn [flat_map completes app]. rewrite <- !app_assoc. reflexivity. }
    all: try reflexivity.
    all: unfold quiet, accumulator_ok; simpl; repeat split; auto; lia.
Qed.

(** ** The properties of the specification *)

(** *** Command scheduling *)

(** C2. N calls of [execute] on a busy session (a command [x0] is running)
    queue exactly N thunks and do nothing else; when the running command and
    then each queued one is answered with success, the queued commands are
    written in the order of their calls, each right after the handler of the
    command before it was called, and the queue ends empty. *)
Theorem queue_is_fifo (s : session) (x0 : exchange) (h0 : handler)
    (xs : list exchange) :
  busy s = true -> waiting s = None ->
  written s = [W_chain (x_query x0) h0] -> queue s = [] -> quiet s ->
  answerable x0 -> Forall answerable xs ->
  run (map call (map x_call xs)) s =
    (set_queue (rev (map thunk_of (map x_call xs))) s, []) /\
  length (queue (fst (run (map call (map x_call xs)) s))) = length xs /\
  exists s',
    run (map call (map x_call xs) ++ flat_map served (x0 :: xs)) s =
      (s', handler_outputs h0 (x_result x0) (x_info x0) ++ flat_map completes xs) /\
    busy s' = false /\ queue s' = [].
Proof.
  intros Hbusy Hw Hwr Hqueue Hq Hx0 Hxs.
  pose proof (executes_while_busy (map x_call xs) s Hbusy) as Hcalls.
  rewrite Hqueue, app_nil_r in Hcalls.
  split; [exact Hcalls|]. split.
  { rewrite Hcalls. simpl. rewrite length_rev, !length_map. reflexivity. }
  rewrite run_app, Hcalls.
  destruct (drain xs x0 h0 (set_queue (rev (map thunk_of (map x_call xs))) s))
    as (s' & Hrun & Hb' & Hq' & _); auto.
  exists s'. rewrite Hrun. auto.
Qed.

Lemma queue_is_fifo_witness :
  let s := in_flight small_options in
  let x0 := {| x_query := js "xquery 1"; x_handler := Some (Fn_callback 0);
               x_result := js "1"; x_info := js "ok" |} in
  let xs := [ {| x_query := js "xquery 2"; x_handler := Some (Fn_callback 1);
                 x_result := []; x_info := js "ok" |};
              {| x_query := js "xquery 3"; x_handler := None;
                 x_result := js "3"; x_info := js "ok" |} ] in
  run (map call (map x_call xs)) s =
    (set_queue (rev (map thunk_of (map x_call xs))) s, []) /\
  length (queue (fst (run (map call (map x_call xs)) s))) = length xs /\
  exists s',
    run (map call (map x_call xs) ++ flat_map served (x0 :: xs)) s =
      (s', handler_outputs (Fn_callback 0) (x_result x0) (x_info x0)
             ++ flat_map completes xs) /\
    busy s' = false /\ queue s' = [].
Proof.
  intros s x0 xs.
  apply (queue_is_fifo s x0 (Fn_callback 0) xs); try reflexivity.
  - unfold quiet, accumulator_ok. vm_compute. repeat split; lia.
  - unfold answerable, wf_string, scalar. simpl.
    repeat split; try discriminate; repeat constructor; simpl; lia.
  - unfold answerable, wf_string, scalar. simpl.
    repeat constructor; simpl; try lia; discriminate.
Defined.

(** *** Fragmentation *)

Lemma concat_singletons (bs : buffer) : concat (map (fun b => [b]) bs) = bs.
Proof. induction bs as [|b bs IH]; simpl; [|rewrite IH]; reflexivity. Qed.

(** C6. The escaped, zero-terminated encoding of a string [str], delivered
    one byte per data event to a session on which [readString] waits: nothing
    is called while the bytes before the terminator arrive, and with the
    terminator the waiting handler is called with [str]. *)
Theorem fragmentation_invariance (str : jsstring) (s : session) (k : cont) :
  wf_string str -> waiting s = Some (Fn_readString, k) -> quiet s ->
  (exists s1,
     run (bytewise (escape (utf8_encode str))) s = (s1, []) /\
     waiting s1 = Some (Fn_readString, k)) /\
  exists sb,
    (0 < length sb)%nat /\
    run (bytewise (frame str)) s =
    invoke k (VStr str) (set_waiting None (set_stringBuffer sb s)).
Proof.
  intros Hwf Hw Hq. split.
  - destruct Hq as (Hb & Hesc & Hoff & Hok).
    destruct (scanBuffer_escape (utf8_encode str) s Hesc Hok)
      as (sb & Hscan & _).
    eexists. split.
    + unfold bytewise. rewrite <- (map_map (fun b => [b]) Socket_data).
      apply (feed_None _ s _ k Hw Hb).
      rewrite concat_singletons. exact Hscan.
    + exact Hw.
  - destruct (feed_frame (utf8_encode str)
                (map (fun b => [b]) (escape (utf8_encode str))) [x00] s k)
      as (sb & Hpos & Hrun); auto.
    { rewrite concat_singletons. reflexivity. }
    exists sb. split; [exact Hpos|].
    unfold bytewise, frame.
    rewrite <- (map_map (fun b => [b]) Socket_data), map_app.
    cbn [map]. rewrite Hrun, utf8_decode_encode by exact Hwf. reflexivity.
Qed.

Lemma fragmentation_invariance_witness :
  let str := [0xE9; 0; 0x20AC; 0x1F600; 0xFF] in
  let s := fst (step Socket_connect (new_Session small_options)) in
  (exists s1,
     run (bytewise (escape (utf8_encode str))) s = (s1, []) /\
     waiting s1 = Some (Fn_readString, K_handshake)) /\
  exists sb,
    (0 < length sb)%nat /\
    run (bytewise (frame str)) s =
    invoke K_handshake (VStr str) (set_waiting None (set_stringBuffer sb s)).
Proof.
  intros str s.
  apply (fragmentation_invariance str s K_handshake).
  - unfold wf_string, scalar. repeat constructor; simpl; lia.
  - reflexivity.
  - unfold quiet, accumulator_ok. vm_compute. repeat split; lia.
Defined.

(** *** The login handshake *)

Lemma le_bytes_range (n : nat) (w : Z) :
  Forall (fun b => 0 <= b < 256) (le_bytes n w).
Proof.
  unfold le_bytes. apply Forall_map, Forall_forall. intros i _.
  apply Z.mod_pos_bound. lia.
Qed.

Lemma hex_digit_lower (d : Z) : 0 <= d < 16 -> lower_hex (hex_digit d).
Proof.
  intros Hd. unfold lower_hex, hex_digit.
  destruct (Z.ltb_spec d 10); lia.
Qed.

(** The digest of [md5] is lowercase hexadecimal. *)
Lemma md5_lower_hex (str : jsstring) : Forall lower_hex (md5 str).
Proof.
  unfold md5, hex. apply Forall_flat_map.
  assert (H : Forall (fun b => 0 <= b < 256) (md5_digest (utf8_encode str))).
  { unfold md5_digest.
    destruct (fold_left md5_block _ _) as [[[a b] c] d].
    repeat apply Forall_app_2; apply le_bytes_range. }
  eapply Forall_impl; [exact H|]. intros b Hb. cbv beta.
  cbv beta in Hb.
  apply Forall_cons_2; [|apply Forall_cons_2; [|apply Forall_nil_2]];
    apply hex_digit_lower; range.
Qed.

(** C7. After the socket connects and the nonce string of the server arrives
    (cut into buffers at any places), the session writes the user name and
    the digest [md5(md5(password) + nonce)], each terminated: the hexadecimal
    MD5 of the password, followed by the nonce as text, hashed with MD5 and
    written in lowercase hexadecimal. *)
Theorem login_digest (o : options_t) (nonce : jsstring)
    (chunks : list buffer) (c : buffer) :
  wf_string nonce -> (0 < initialStringBufferSize o)%nat ->
  concat chunks ++ c = frame nonce -> c <> [] ->
  let digest := md5 (md5 (password o) ++ nonce) in
  snd (run (Socket_connect :: map Socket_data (chunks ++ [c])) (new_Session o)) =
    [Socket_write (terminated (user o) ++ terminated digest)] /\
  Forall lower_hex digest /\ Forall lower_hex (md5 (password o)).
Proof.
  intros Hwf Hsize Hcat Hc digest.
  split; [|split; apply md5_lower_hex].
  cbn [run]. unfold andthen at 1.
  assert (Hconn : step Socket_connect (new_Session o) =
                  (set_waiting (Some (Fn_readString, K_handshake)) (new_Session o), []))
    by reflexivity.
  rewrite Hconn.
  destruct (feed_frame (utf8_encode nonce) chunks c
              (set_waiting (Some (Fn_readString, K_handshake)) (new_Session o))
              K_handshake)
    as (sb & _ & Hrun); auto.
  { unfold quiet, accumulator_ok, new_Session, new_Buffer. simpl.
    rewrite length_replicate. repeat split; auto; lia. }
  rewrite Hrun, utf8_decode_encode by exact Hwf.
  cbn [invoke]. unfold writeStrings.
  rewrite writeStrings_buffer_spec. cbn [flat_map snd app options set_waiting set_stringBuffer new_Session].
  rewrite app_nil_r. reflexivity.
Qed.

Lemma login_digest_witness :
  let digest := md5 (md5 (js "admin") ++ js "abc123") in
  snd (run (Socket_connect
              :: map Socket_data ([[x61; x62]; [x63; x31; x32]] ++ [[x33; x00]]))
         (new_Session sessionDefaults)) =
    [Socket_write (terminated (js "admin") ++ terminated digest)] /\
  Forall lower_hex digest /\ Forall lower_hex (md5 (js "admin")).
Proof.
  apply (login_digest sessionDefaults (js "abc123")
           [[x61; x62]; [x63; x31; x32]] [x33; x00]).
  - unfold wf_string, scalar. repeat constructor; simpl; lia.
  - cbn [sessionDefaults initialStringBufferSize]. lia.
  - reflexivity.
  - discriminate.
Defined.

(** The handshake of the specification: nonce abc123, password admin. *)
Example login_digest_admin :
  md5 (md5 (js "admin") ++ js "abc123") = js "49e463405218e6b4ce6557cc9f7b8ca5".
Proof. vm_compute. reflexivity. Qed.

(** *** Escapes *)

Lemma run_two (e1 e2 : event) (s : session) :
  run [e1; e2] s =
  (let '(s1, o1) := step e1 s in
   let '(s2, o2) := step e2 s1 in
   (s2, o1 ++ o2)).
Proof.
  change [e1; e2] with ([e1] ++ [e2]). rewrite run_app, run_single.
  destruct (step e1 s) as [s1 o1]. rewrite run_single. reflexivity.
Qed.

(** C8. A byte read right after an escape byte is appended to the accumulated
    bytes as it is, whatever its value, and clears the escape flag: within one
    buffer, and when the escape byte ends one data event and the byte begins
    the next. In between the flag is kept in the session; the second event
    calls no handler for the byte, even if it is 00. *)
Theorem escaped_byte_is_literal (s : session) (k : cont) (byte : byte)
    (rest : buffer) :
  inEscape s = false -> accumulator_ok s ->
  waiting s = Some (Fn_readString, k) -> buffers s = [] ->
  let s' := set_inEscape false (pushToStringBuffer byte s) in
  accumulated s' = accumulated s ++ [byte] /\ inEscape s' = false /\
  scanBuffer (xff :: byte :: rest) s = scanBuffer rest s' /\
  run [Socket_data [xff]] s = (set_inEscape true s, []) /\
  run [Socket_data [xff]; Socket_data [byte]] s = (s', []) /\
  run [Socket_data [xff]; Socket_data (byte :: rest)] s =
    run [Socket_data rest] s'.
Proof.
  intros Hesc Hok Hw Hb s'.
  assert (Hs' : set_inEscape false (pushToStringBuffer byte (set_inEscape true s)) = s').
  { subst s'. rewrite !pushToStringBuffer_decoder. reflexivity. }
  assert (Hscan : forall r, scanBuffer (byte :: r) (set_inEscape true s) = scanBuffer r s').
  { intros r. cbn [scanBuffer inEscape set_inEscape]. rewrite Hs'. reflexivity. }
  assert (H1 : step (Socket_data [xff]) s = (set_inEscape true s, [])).
  { cbn [step]. rewrite (handleData_readString _ s k Hw Hb).
    cbn [scanBuffer]. rewrite Hesc. reflexivity. }
  assert (H2 : forall r, handleData (byte :: r) (set_inEscape true s) = handleData r s').
  { intros r.
    rewrite (handleData_readString _ (set_inEscape true s) k Hw Hb), Hscan.
    rewrite (handleData_readString r s' k); [reflexivity| |].
    - subst s'. rewrite pushToStringBuffer_decoder. exact Hw.
    - subst s'. rewrite pushToStringBuffer_decoder. exact Hb. }
  split.
  { subst s'. apply (pushToStringBuffer_spec byte s Hok). }
  split; [reflexivity|].
  split.
  { cbn [scanBuffer]. rewrite Hesc. cbn [Byte.eqb]. simpl. rewrite Hs'.
    reflexivity. }
  split; [rewrite run_single; exact H1|].
  rewrite !run_two, H1. cbn [step].
  split.
  - rewrite (handleData_readString _ (set_inEscape true s) k Hw Hb), Hscan.
    reflexivity.
  - rewrite H2, run_single. cbn [step].
    destruct (handleData rest s'). reflexivity.
Qed.

Lemma escaped_byte_is_literal_witness :
  let s := fst (step Socket_connect (new_Session small_options)) in
  let s' := set_inEscape false (pushToStringBuffer x00 s) in
  accumulated s' = accumulated s ++ [x00] /\ inEscape s' = false /\
  scanBuffer (xff :: x00 :: [x41; x00]) s = scanBuffer [x41; x00] s' /\
  run [Socket_data [xff]] s = (set_inEscape true s, []) /\
  run [Socket_data [xff]; Socket_data [x00]] s = (s', []) /\
  run [Socket_data [xff]; Socket_data (x00 :: [x41; x00])] s =
    run [Socket_data [x41; x00]] s'.
Proof.
  intros s.
  apply (escaped_byte_is_literal s K_handshake x00 [x41; x00]).
  - reflexivity.
  - unfold accumulator_ok. vm_compute. lia.
  - reflexivity.
  - reflexivity.
Defined.

(** *** Data that nobody waits for *)

(** Reading a string from the chain of buffers is scanning the bytes of all
    buffers in their order: the result, and what is left in the chain. *)
Lemma getStringFromBuffers_while_concat (bufs : list buffer) :
  forall s : session,
  buffers s = bufs ->
  exists bufs',
    getStringFromBuffers_while bufs s =
      (fst <$> fst (scanBuffer (concat bufs) s),
       set_buffers bufs' (snd (scanBuffer (concat bufs) s))) /\
    concat bufs' =
      match fst (scanBuffer (concat bufs) s) with
      | Some (_, unconsumed) => unconsumed
      | None => []
      end.
Proof.
  induction bufs as [|b bufs IH]; intros s Hb.
  - exists []. simpl. split; [|reflexivity].
    destruct s; simpl in *; subst; reflexivity.
  - cbn [getStringFromBuffers_while concat].
    rewrite scanBuffer_set_buffers.
    destruct (scanBuffer b s) as [[[str unconsumed]|] s1] eqn:E; cbn [fst snd].
    + rewrite (scanBuffer_app_Some _ _ _ _ _ _ E). cbn [fst snd fmap option_fmap option_map].
      destruct unconsumed as [|u unconsumed]; cbn [length Nat.ltb Nat.leb].
      * exists bufs. split; reflexivity.
      * exists ((u :: unconsumed) :: bufs). split; reflexivity.
    + rewrite (scanBuffer_app_None _ _ _ _ E).
      destruct (IH (set_buffers bufs s1) eq_refl) as (bufs' & Hrun & Hcat).
      rewrite scanBuffer_set_buffers in Hrun, Hcat. cbn [fst snd] in Hrun, Hcat.
      exists bufs'. split; [|exact Hcat].
      rewrite Hrun. reflexivity.
Qed.

(** C10. A data event while no read is pending appends the buffer at the back
    of the chain and does nothing else: no handler is called, nothing is
    emitted. The next reads take the bytes in the order of arrival:
    [getStringFromBuffers] gives what a scan of all buffered bytes, oldest
    first, gives, and leaves the bytes after the terminator; [readByte] hands
    the oldest byte to its handler and leaves the rest. *)
Theorem unawaited_data_is_buffered (s : session) (data : buffer) :
  waiting s = None -> Forall (fun b => b <> []) (buffers s) -> data <> [] ->
  let s1 := set_buffers (buffers s ++ [data]) s in
  let arrived := concat (buffers s) ++ data in
  handleData data s = (s1, []) /\
  concat (buffers s1) = arrived /\
  (exists bufs',
     getStringFromBuffers s1 =
       (fst <$> fst (scanBuffer arrived s),
        set_buffers bufs' (snd (scanBuffer arrived s))) /\
     concat bufs' =
       match fst (scanBuffer arrived s) with
       | Some (_, unconsumed) => unconsumed
       | None => []
       end) /\
  (exists b0 bufs',
     arrived = b0 :: concat bufs' /\
     forall k, readByte k s1 = invoke k (VByte b0) (set_buffers bufs' s)).
Proof.
  intros Hw Hne Hdata s1 arrived.
  assert (Hcat : concat (buffers s ++ [data]) = arrived).
  { subst arrived. rewrite concat_app. simpl. rewrite app_nil_r. reflexivity. }
  split.
  { unfold handleData. fold s1. change (waiting s1) with (waiting s).
    rewrite Hw. reflexivity. }
  split; [exact Hcat|].
  split.
  { destruct (getStringFromBuffers_while_concat (buffers s ++ [data]) s1 eq_refl)
      as (bufs' & Hrun & Hrest).
    rewrite Hcat in Hrun, Hrest. subst s1.
    rewrite scanBuffer_set_buffers in Hrun, Hrest. cbn [fst snd] in Hrun, Hrest.
    exists bufs'. split; [exact Hrun | exact Hrest]. }
  assert (Hall : Forall (fun b => b <> []) (buffers s ++ [data])).
  { apply Forall_app_2; [exact Hne|]. apply Forall_cons_2; [exact Hdata|].
    apply Forall_nil_2. }
  rewrite <- Hcat. unfold readByte, readByte_with, getByteFromBuffers.
  change (buffers s1) with (buffers s ++ [data]).
  destruct (buffers s ++ [data]) as [|b bufs] eqn:E.
  { destruct (buffers s); discriminate. }
  apply Forall_cons_1 in Hall as [Hb _].
  destruct b as [|b0 [|b1 b]]; [congruence | |].
  - exists b0, bufs. split; [reflexivity|]. intros k. reflexivity.
  - exists b0, ((b1 :: b) :: bufs). split; [reflexivity|]. intros k.
    reflexivity.
Qed.

Lemma unawaited_data_is_buffered_witness :
  let s := set_buffers [[x41; x42]] (logged_in small_options) in
  let data := [x00; x43] in
  let s1 := set_buffers (buffers s ++ [data]) s in
  let arrived := concat (buffers s) ++ data in
  handleData data s = (s1, []) /\
  concat (buffers s1) = arrived /\
  (exists bufs',
     getStringFromBuffers s1 =
       (fst <$> fst (scanBuffer arrived s),
        set_buffers bufs' (snd (scanBuffer arrived s))) /\
     concat bufs' =
       match fst (scanBuffer arrived s) with
       | Some (_, unconsumed) => unconsumed
       | None => []
       end) /\
  (exists b0 bufs',
     arrived = b0 :: concat bufs' /\
     forall k, readByte k s1 = invoke k (VByte b0) (set_buffers bufs' s)).
Proof.
  intros s data.
  apply (unawaited_data_is_buffered s data).
  - reflexivity.
  - apply Forall_cons_2; [discriminate | apply Forall_nil_2].
  - discriminate.
Defined.

(** *** Commands and their replies *)

Lemma execute_free (query : jsstring) (handler : option handler) (s : session) :
  busy s = false ->
  execute query handler s =
  (set_written
     (written s ++ [W_chain query (default Fn_defaultHandler handler)])
     (set_busy true s),
   [Socket_write (terminated query)]).
Proof.
  intros Hfree. unfold execute. rewrite Hfree.
  unfold andthen, update, writeStrings.
  rewrite writeStrings_buffer_spec. cbn [flat_map]. rewrite app_nil_r.
  reflexivity.
Qed.

Lemma run_cons (e : event) (es : list event) (s : session) :
  run (e :: es) s =
  (let '(s1, o1) := step e s in
   let '(s2, o2) := run es s1 in
   (s2, o1 ++ o2)).
Proof. reflexivity. Qed.

(** The reply to a command has an empty info string and comes in one buffer:
    the second [readString] finds the empty string buffered, takes it for no
    string and waits; the status byte stays in the chain and
    [invokeHandler] is not reached. *)
Lemma served_empty_info (s : session) (query : jsstring) (h : handler)
    (w : list write_callback) (result : jsstring) (code : byte) :
  waiting s = None -> written s = W_chain query h :: w -> quiet s ->
  wf_string result ->
  exists sb,
    (0 < length sb)%nat /\
    run [Socket_written; Socket_data (reply result [] code)] s =
    (set_buffers [[code]]
       (set_waiting
          (Some (Fn_readString,
                 K_maybeInvokeNext query h [VStr result] [Fn_readByte]))
          (set_written w (set_stringBuffer sb s))),
     []).
Proof.
  intros Hw Hwr (Hb & Hesc & Hoff & Hok) Hres.
  set (s1 := set_waiting
               (Some (Fn_readString,
                      K_maybeInvokeNext query h [] [Fn_readString; Fn_readByte]))
               (set_written w s)).
  assert (H1 : step Socket_written s = (s1, [])).
  { cbn [step]. rewrite Hwr. unfold andthen, update. cbn [run_callback].
    unfold chain. cbn [reader_with]. unfold readString_with.
    unfold getStringFromBuffers. cbn [buffers set_written]. rewrite Hb.
    reflexivity. }
  destruct (scanBuffer_frame_rest result (frame [] ++ [code]) s1 Hres Hesc Hoff Hok)
    as (sb1 & Hpos1 & Hscan1).
  set (s2 := set_waiting None
               (set_buffers [frame [] ++ [code]] (decoder_at sb1 0 false s1))).
  assert (Hok2 : accumulator_ok s2) by (split; simpl; lia).
  destruct (getStringFromBuffers_frame [] [code] [] s2 (Forall_nil_2 _)
              eq_refl eq_refl Hok2 eq_refl)
    as (sb2 & Hpos2 & Hget2).
  exists sb2. split; [exact Hpos2|].
  rewrite run_two, H1. cbn [step].
  rewrite (handleData_readString _ s1 _ eq_refl Hb).
  unfold reply. rewrite Hscan1, frame_nonempty. fold s2.
  cbn [invoke maybeInvokeNext reader_with app]. unfold readString_with at 1.
  rewrite Hget2. cbn [truthy length Nat.ltb Nat.leb].
  f_equal. subst s2 s1. destruct s; simpl in *; subst; reflexivity.
Qed.

(** C1. A free session executes a command; the write is flushed and the reply
    arrives as one buffer holding the result, an empty info string and the
    status byte. Only the command is written: no handler is called, the
    session stays busy and waits for a string, and the status byte is left in
    the buffer chain. *)
Theorem empty_info_stalls_command (s : session) (query : jsstring)
    (handler : option handler) (result : jsstring) (code : byte) :
  busy s = false -> waiting s = None -> written s = [] -> quiet s ->
  wf_string result ->
  exists s',
    run [Call_execute query handler; Socket_written;
         Socket_data (reply result [] code)] s =
      (s', [Socket_write (terminated query)]) /\
    waiting s' =
      Some (Fn_readString,
            K_maybeInvokeNext query (default Fn_defaultHandler handler)
              [VStr result] [Fn_readByte]) /\
    buffers s' = [[code]] /\ busy s' = true.
Proof.
  intros Hfree Hw Hwr Hq Hres.
  rewrite run_cons. cbn [step]. rewrite (execute_free _ _ _ Hfree), Hwr.
  destruct (served_empty_info
              (set_written [W_chain query (default Fn_defaultHandler handler)]
                 (set_busy true s))
              query (default Fn_defaultHandler handler) [] result code)
    as (sb & _ & Hrun); auto.
  cbn [app]. rewrite Hrun. eexists. split; [reflexivity|].
  repeat split.
Qed.

Lemma empty_info_stalls_command_witness :
  exists s',
    run [Call_execute (js "xquery <foo/>") (Some (Fn_callback 7));
         Socket_written;
         Socket_data (reply (js "<foo/>") [] x00)] (logged_in sessionDefaults) =
      (s', [Socket_write (terminated (js "xquery <foo/>"))]) /\
    waiting s' =
      Some (Fn_readString,
            K_maybeInvokeNext (js "xquery <foo/>")
              (default Fn_defaultHandler (Some (Fn_callback 7)))
              [VStr (js "<foo/>")] [Fn_readByte]) /\
    buffers s' = [[x00]] /\ busy s' = true.
Proof.
  apply (empty_info_stalls_command (logged_in sessionDefaults)
           (js "xquery <foo/>") (Some (Fn_callback 7)) (js "<foo/>") x00).
  - vm_compute. reflexivity.
  - vm_compute. reflexivity.
  - vm_compute. reflexivity.
  - apply quietb_quiet. vm_compute. reflexivity.
  - unfold wf_string, scalar. repeat constructor; simpl; lia.
Defined.

(** C5. A free session with an empty queue executes a command that has no
    handler; the reply (result, non-empty info, status byte 0) arrives in one
    buffer. The result event carries the result and the info, and
    [undefined] as its code: [invokeHandler] calls the handler with two
    arguments. *)
Theorem default_handler_code_is_undefined (s : session)
    (query result info : jsstring) :
  busy s = false -> waiting s = None -> written s = [] -> queue s = [] ->
  quiet s -> wf_string result -> wf_string info -> info <> [] ->
  snd (run [Call_execute query None; Socket_written;
            Socket_data (reply result info x00)] s) =
  [Socket_write (terminated query);
   Emit_result (VStr result) (VStr info) undefined].
Proof.
  intros Hfree Hw Hwr Hqueue Hq Hres Hinfo Hne.
  rewrite run_cons. cbn [step]. rewrite (execute_free _ _ _ Hfree), Hwr.
  destruct (served_reply
              (set_written [W_chain query Fn_defaultHandler] (set_busy true s))
              query Fn_defaultHandler [] result info x00)
    as (sb & _ & Hrun); auto.
  cbn [app default from_option id]. rewrite Hrun, invokeHandler_success.
  unfold andthen. rewrite call_handler_outputs.
  unfold checkQueue, andthen, update.
  cbn [queue set_busy set_written set_stringBuffer]. rewrite Hqueue.
  reflexivity.
Qed.

Lemma default_handler_code_is_undefined_witness :
  snd (run [Call_execute (js "xquery <foo/>") None; Socket_written;
            Socket_data (reply (js "<foo/>") (js "Query executed.") x00)]
         (logged_in sessionDefaults)) =
  [Socket_write (terminated (js "xquery <foo/>"));
   Emit_result (VStr (js "<foo/>")) (VStr (js "Query executed.")) undefined].
Proof.
  apply (default_handler_code_is_undefined (logged_in sessionDefaults)
           (js "xquery <foo/>") (js "<foo/>") (js "Query executed.")).
  1-4: vm_compute; reflexivity.
  - apply quietb_quiet. vm_compute. reflexivity.
  - unfold wf_string, scalar. repeat constructor; simpl; lia.
  - unfold wf_string, scalar. repeat constructor; simpl; lia.
  - discriminate.
Defined.

(** The whole reply of a failed command in one buffer (with a non-empty
    info): the error is emitted, nothing else. *)
Lemma served_failure (s : session) (query : jsstring) (h : handler)
    (w : list write_callback) (result info : jsstring) (code : byte) :
  waiting s = None -> written s = W_chain query h :: w -> quiet s ->
  wf_string result -> wf_string info -> info <> [] -> code <> x00 ->
  exists sb,
    (0 < length sb)%nat /\
    run [Socket_written; Socket_data (reply result info code)] s =
    (set_written w (set_stringBuffer sb s),
     [Emit_error (query_failed query info)]).
Proof.
  intros Hw Hwr Hq Hres Hinfo Hne Hcode.
  destruct (served_reply s query h w result info code Hw Hwr Hq Hres Hinfo Hne)
    as (sb & Hpos & Hrun).
  exists sb. split; [exact Hpos|]. rewrite Hrun.
  unfold invokeHandler, is_zero.
  destruct (Byte.eqb code x00) eqn:E; [|reflexivity].
  apply Byte.byte_dec_bl in E. congruence.
Qed.

(** C4. The session waits for the status byte of a command whose result and
    info have been read, and a buffer arrives that starts with a nonzero
    byte: an error with the command text and the info string is emitted and
    nothing else; the session stays busy, the queue is as it was, and calls
    of [execute] made afterwards are only queued. *)
Theorem command_failure (s : session) (query : jsstring) (h : handler)
    (result info : jsstring) (code : byte) (rest : buffer)
    (calls : list (jsstring * option handler)) :
  busy s = true ->
  waiting s =
    Some (Fn_readByte,
          K_maybeInvokeNext query h [VStr result; VStr info] []) ->
  buffers s = [] -> code <> x00 ->
  exists s',
    handleData (code :: rest) s =
      (s', [Emit_error (query_failed query info)]) /\
    busy s' = true /\ queue s' = queue s /\ written s' = written s /\
    waiting s' = None /\
    run (map call calls) s' =
      (set_queue (rev (map thunk_of calls) ++ queue s) s', []).
Proof.
  intros Hbusy Hw Hb Hcode.
  assert (Hz : Byte.eqb code x00 = false).
  { destruct (Byte.eqb code x00) eqn:E; [|reflexivity].
    apply Byte.byte_dec_bl in E. congruence. }
  assert (Hrun : exists s',
             handleData (code :: rest) s =
               (s', [Emit_error (query_failed query info)]) /\
             busy s' = true /\ queue s' = queue s /\ written s' = written s /\
             waiting s' = None).
  { unfold handleData.
    change (waiting (set_buffers (buffers s ++ [code :: rest]) s))
      with (waiting s).
    rewrite Hw, Hb. unfold getByteFromBuffers. cbn [app buffers set_buffers].
    unfold popAndInvokeHandler.
    destruct rest as [|r rest]; cbn [length Nat.ltb Nat.leb waiting set_buffers];
      rewrite Hw; cbn [invoke maybeInvokeNext app apply_invokeHandler];
      unfold invokeHandler, is_zero; rewrite Hz;
      (eexists; split; [reflexivity|]); simpl; auto. }
  destruct Hrun as (s' & Hrun & Hbusy' & Hq' & Hwr' & Hw').
  exists s'. repeat split; auto.
  rewrite (executes_while_busy calls s' Hbusy'), Hq'. reflexivity.
Qed.

Lemma command_failure_witness :
  let s := fst (run [Socket_written;
                     Socket_data (frame (js "") ++ [x45]);
                     Socket_data [x00]]
                  (in_flight small_options)) in
  exists s',
    handleData (x01 :: []) s =
      (s', [Emit_error (query_failed (js "xquery 1") (js "E"))]) /\
    busy s' = true /\ queue s' = queue s /\ written s' = written s /\
    waiting s' = None /\
    run (map call [(js "xquery 2", None)]) s' =
      (set_queue (rev (map thunk_of [(js "xquery 2", None)]) ++ queue s) s', []).
Proof.
  intros s.
  apply (command_failure s (js "xquery 1") (Fn_callback 0) (js "") (js "E")
           x01 [] [(js "xquery 2", None)]).
  - reflexivity.
  - reflexivity.
  - reflexivity.
  - discriminate.
Defined.

(** *** After the transport closed *)

(** C9, as the code has it. The end of the socket marks the session busy and
    does nothing else; every call of [execute] made afterwards is queued:
    nothing is written, no handler is called, no error is emitted, and the
    session is still busy. *)
Theorem closed_session_only_queues (s : session)
    (calls : list (jsstring * option handler)) :
  step Socket_end s = (set_busy true s, []) /\
  run (map call calls) (set_busy true s) =
    (set_queue (rev (map thunk_of calls) ++ queue s) (set_busy true s), []) /\
  busy (fst (run (Socket_end :: map call calls) s)) = true /\
  snd (run (Socket_end :: map call calls) s) = [].
Proof.
  pose proof (executes_while_busy calls (set_busy true s) eq_refl) as H.
  split; [reflexivity|]. split; [exact H|].
  rewrite run_cons. cbn [step]. unfold update. rewrite H.
  split; reflexivity.
Qed.

(** C9 as stated fails: a call of [execute] after the socket ended reports no
    failure; it is put in the queue, where nothing will take it out. *)
Lemma closed_session_execute_does_not_fail :
  let r := run [Socket_end; Call_execute (js "xquery 1") (Some (Fn_callback 0))]
             (logged_in sessionDefaults) in
  ~ reports_failure (snd r) /\ snd r = [] /\
  queue (fst r) =
    [{| thunk_query := js "xquery 1"; thunk_handler := Fn_callback 0 |}] /\
  written (fst r) = [].
Proof.
  assert (H : snd (run [Socket_end;
                        Call_execute (js "xquery 1") (Some (Fn_callback 0))]
                     (logged_in sessionDefaults)) = [])
    by (vm_compute; reflexivity).
  cbv zeta. rewrite H. split; [|split; [reflexivity|]].
  - unfold reports_failure. intros Hex. inversion Hex.
  - split; vm_compute; reflexivity.
Qed.

(** *** The bytes of a written string *)

(** C3, as the code has it. [writeStrings] hands the socket, for each string
    in order, the UTF-8 bytes of the string and one zero byte; no byte is
    escaped. The callback joins the writes that are not yet flushed. *)
Theorem writeStrings_terminates_without_escaping (strs : list jsstring)
    (cb : write_callback) (s : session) :
  writeStrings strs cb s =
  (set_written (written s ++ [cb]) s,
   [Socket_write (flat_map terminated strs)]).
Proof.
  unfold writeStrings. rewrite writeStrings_buffer_spec. reflexivity.
Qed.

(** C3 as stated fails: the command a, U+0000, b is written as 61 00 62 00,
    with no escape byte before the zero; its escaped frame is another byte
    string. *)
Lemma command_with_zero_is_not_escaped :
  let cmd := [0x61; 0; 0x62] in
  snd (run [Call_execute cmd None] (logged_in sessionDefaults)) =
    [Socket_write [x61; x00; x62; x00]] /\
  frame cmd = [x61; xff; x00; x62; x00] /\
  ~ In xff (writeStrings_buffer [cmd]).
Proof.
  cbv zeta. split; [vm_compute; reflexivity|].
  split; [vm_compute; reflexivity|].
  rewrite writeStrings_buffer_spec. vm_compute. intuition discriminate.
Qed.

Lemma plain_byte (z : Z) :
  0 < z < 255 ->
  Byte.eqb (byte_of_Z z) xff || Byte.eqb (byte_of_Z z) x00 = false.
Proof.
  intros Hz. apply orb_false_iff.
  split; destruct (Byte.eqb _ _) eqn:E; try reflexivity;
    apply Byte.byte_dec_bl in E; apply (f_equal Z_of_byte) in E;
    rewrite Z_of_byte_of_Z in E by lia; vm_compute in E; lia.
Qed.

Lemma utf8_encode_cp_plain (c : codepoint) :
  c <> 0 ->
  Forall (fun b => Byte.eqb b xff || Byte.eqb b x00 = false) (utf8_encode_cp c).
Proof.
  intros Hc. unfold utf8_encode_cp, is_surrogate.
  destruct ((c <? 0) || (1114112 <=? c) || (55296 <=? c) && (c <=? 57343)) eqn:E.
  { repeat (apply Forall_cons_2; [reflexivity|]). apply Forall_nil_2. }
  assert (Hr : 0 <= c < 1114112).
  { apply orb_false_iff in E as [E _]. apply orb_false_iff in E as [E1 E2].
    apply Z.ltb_ge in E1. apply Z.leb_gt in E2. lia. }
  destruct (Z.ltb_spec c 128); [|destruct (Z.ltb_spec c 2048);
                                  [|destruct (Z.ltb_spec c 65536)]];
    repeat (apply Forall_cons_2; [apply plain_byte; range|]);
    apply Forall_nil_2.
Qed.

Lemma escape_plain (bs : buffer) :
  Forall (fun b => Byte.eqb b xff || Byte.eqb b x00 = false) bs ->
  escape bs = bs.
Proof.
  induction 1 as [|b bs Hb _ IH]; [reflexivity|].
  unfold escape in *. cbn [flat_map]. rewrite Hb, IH. reflexivity.
Qed.

(** For a string without U+0000 the written bytes are the escaped frame all
    the same: the UTF-8 bytes of the other code points are neither 00 nor
    FF. *)
Lemma terminated_frame (str : jsstring) :
  Forall (fun c => c <> 0) str -> terminated str = frame str.
Proof.
  intros H. unfold terminated, frame. f_equal. symmetry.
  apply escape_plain. unfold utf8_encode. apply Forall_flat_map.
  eapply Forall_impl; [exact H|]. intros c Hc. apply utf8_encode_cp_plain, Hc.
Qed.

(** ** Further properties of the code *)

(** *** [writeStrings] *)

(** X1. A code point U+0000 inside a written string is, on the wire, the end
    of a string: writing one string with a zero in it hands the socket the
    same bytes as writing its two parts as two strings. *)
Theorem embedded_zero_is_a_boundary (before after : list jsstring)
    (str1 str2 : jsstring) :
  writeStrings_buffer (before ++ [str1 ++ 0 :: str2] ++ after) =
  writeStrings_buffer (before ++ [str1; str2] ++ after).
Proof.
  rewrite !writeStrings_buffer_spec, !flat_map_app. f_equal. f_equal.
  cbn [flat_map]. rewrite app_nil_r, app_nil_r.
  unfold terminated, utf8_encode.
  rewrite flat_map_app. cbn [flat_map].
  change (utf8_encode_cp 0) with [x00].
  rewrite <- !app_assoc. reflexivity.
Qed.

(** *** [pushToStringBuffer] *)

(** X2. The string buffer doubles exactly when it is full and keeps its
    length otherwise; either way the bytes accumulated so far stay and the
    new byte follows them. *)
Theorem accumulator_doubles_when_full (b : byte) (s : session) :
  accumulator_ok s ->
  let s' := pushToStringBuffer b s in
  length (stringBuffer s') =
    (if (length (stringBuffer s) =? stringBufferOffset s)%nat
     then 2 * length (stringBuffer s) else length (stringBuffer s))%nat /\
  stringBufferOffset s' = S (stringBufferOffset s) /\
  accumulated s' = accumulated s ++ [b] /\
  accumulator_ok s'.
Proof.
  intros Hok s'. destruct (pushToStringBuffer_spec b s Hok) as [Hacc Hok'].
  split; [|split; [|split; assumption]].
  - subst s'. rewrite pushToStringBuffer_decoder. simpl.
    rewrite length_insert. unfold grown.
    destruct (Nat.eqb_spec (length (stringBuffer s)) (stringBufferOffset s))
      as [E|E]; [|reflexivity].
    unfold Buffer_copy, new_Buffer.
    rewrite length_app, length_take, length_drop, !length_replicate. lia.
  - subst s'. rewrite pushToStringBuffer_decoder. reflexivity.
Qed.

Lemma accumulator_doubles_when_full_witness :
  let s := decoder_at [x41; x42] 2 false (new_Session small_options) in
  let s' := pushToStringBuffer x43 s in
  length (stringBuffer s') =
    (if (length (stringBuffer s) =? stringBufferOffset s)%nat
     then 2 * length (stringBuffer s) else length (stringBuffer s))%nat /\
  stringBufferOffset s' = S (stringBufferOffset s) /\
  accumulated s' = accumulated s ++ [x43] /\
  accumulator_ok s'.
Proof.
  intros s.
  apply (accumulator_doubles_when_full x43 s).
  unfold accumulator_ok. simpl. lia.
Defined.

(** *** [getStringFromBuffers] *)



(** X4. Reading a string does not depend on how the buffered bytes are cut
    into buffers: two chains with the same bytes give the same result, leave
    the same bytes, and leave the decoder in the same state. *)
Theorem buffered_read_ignores_cuts (bufs1 bufs2 : list buffer) (s : session) :
  concat bufs1 = concat bufs2 ->
  let r1 := getStringFromBuffers (set_buffers bufs1 s) in
  let r2 := getStringFromBuffers (set_buffers bufs2 s) in
  fst r1 = fst r2 /\
  concat (buffers (snd r1)) = concat (buffers (snd r2)) /\
  stringBuffer (snd r1) = stringBuffer (snd r2) /\
  stringBufferOffset (snd r1) = stringBufferOffset (snd r2) /\
  inEscape (snd r1) = inEscape (snd r2).
Proof.
  intros Hcat r1 r2. subst r1 r2. unfold getStringFromBuffers.
  cbn [buffers set_buffers].
  destruct (getStringFromBuffers_while_concat bufs1 (set_buffers bufs1 s) eq_refl)
    as (b1 & H1 & C1).
  destruct (getStringFromBuffers_while_concat bufs2 (set_buffers bufs2 s) eq_refl)
    as (b2 & H2 & C2).
  rewrite scanBuffer_set_buffers in H1, C1, H2, C2.
  cbn [fst snd] in H1, C1, H2, C2.
  rewrite H1, H2. rewrite <- Hcat in *. cbn [fst snd buffers set_buffers].
  rewrite C1, C2. auto.
Qed.

Lemma buffered_read_ignores_cuts_witness :
  let bufs1 := [[x41; xff]; [x00; x42; x00]; [x43]] in
  let bufs2 := [[x41]; []; [xff; x00; x42]; [x00; x43]] in
  let s := logged_in small_options in
  let r1 := getStringFromBuffers (set_buffers bufs1 s) in
  let r2 := getStringFromBuffers (set_buffers bufs2 s) in
  fst r1 = fst r2 /\
  concat (buffers (snd r1)) = concat (buffers (snd r2)) /\
  stringBuffer (snd r1) = stringBuffer (snd r2) /\
  stringBufferOffset (snd r1) = stringBufferOffset (snd r2) /\
  inEscape (snd r1) = inEscape (snd r2).
Proof.
  intros bufs1 bufs2 s.
  apply (buffered_read_ignores_cuts bufs1 bufs2 s). reflexivity.
Defined.

Lemma set_buffers_nil_same (s : session) :
  buffers s = [] -> set_buffers [] s = s.
Proof. destruct s; simpl; intros ->; reflexivity. Qed.

(** X5. A read that finds no terminator in a buffer takes all of it: the
    chain is empty afterwards, and the part of the string read so far is
    kept in the session, so that reading the next buffer gives what reading
    the two as one buffer gives. *)
Theorem partial_string_is_kept (b1 b2 : buffer) (s s1 : session) :
  getStringFromBuffers (set_buffers [b1] s) = (None, s1) ->
  buffers s1 = [] /\
  getStringFromBuffers (set_buffers [b2] s1) =
  getStringFromBuffers (set_buffers [b1 ++ b2] s).
Proof.
  unfold getStringFromBuffers. cbn [buffers set_buffers getStringFromBuffers_while].
  change (set_buffers [] (set_buffers [b1] s)) with (set_buffers [] s).
  change (set_buffers [] (set_buffers [b1 ++ b2] s)) with (set_buffers [] s).
  change (set_buffers [] (set_buffers [b2] s1)) with (set_buffers [] s1).
  destruct (scanBuffer b1 (set_buffers [] s)) as [[[str rest]|] s1'] eqn:E.
  { destruct (0 <? length rest)%nat; discriminate. }
  intros [= <-].
  pose proof (scanBuffer_fields b1 (set_buffers [] s)) as Hf.
  rewrite E in Hf. simpl in Hf. destruct Hf as (_ & _ & Hb & _).
  split; [exact Hb|].
  rewrite (scanBuffer_app_None _ _ _ _ E).
  rewrite (set_buffers_nil_same s1') by exact Hb. reflexivity.
Qed.

Lemma partial_string_is_kept_witness :
  let s := logged_in small_options in
  let s1 := snd (getStringFromBuffers (set_buffers [[x41; xff]] s)) in
  buffers s1 = [] /\
  getStringFromBuffers (set_buffers [[x00; x42; x00; x43]] s1) =
  getStringFromBuffers (set_buffers [[x41; xff] ++ [x00; x42; x00; x43]] s).
Proof.
  intros s s1.
  apply (partial_string_is_kept [x41; xff] [x00; x42; x00; x43] s s1).
  reflexivity.
Defined.

(** *** [handleData] *)

Lemma awaited_byte_delivery (s : session) (k : cont) (b : byte)
    (rest : buffer) :
  waiting s = Some (Fn_readByte, k) -> buffers s = [] ->
  handleData (b :: rest) s =
  invoke k (VByte b)
    (set_waiting None
       (set_buffers (match rest with [] => [] | _ => [rest] end) s)).
Proof.
  intros Hw Hb. unfold handleData.
  change (waiting (set_buffers (buffers s ++ [b :: rest]) s)) with (waiting s).
  rewrite Hw, Hb. unfold getByteFromBuffers. cbn [app buffers set_buffers].
  unfold popAndInvokeHandler.
  destruct rest as [|r rest]; cbn [length Nat.ltb Nat.leb waiting set_buffers];
    rewrite Hw; reflexivity.
Qed.

(** X6. A data event while [readByte] waits and nothing is buffered: the
    waiting handler is called with the first byte of the buffer, the slot is
    cleared before the call, and the bytes after it stay in the chain; a
    buffer of exactly one byte leaves nothing behind. *)
Theorem awaited_byte_is_delivered (s : session) (k : cont) (b : byte)
    (rest : buffer) :
  waiting s = Some (Fn_readByte, k) -> buffers s = [] ->
  handleData (b :: rest) s =
  invoke k (VByte b)
    (set_waiting None
       (set_buffers (match rest with [] => [] | _ => [rest] end) s)).
Proof. exact (awaited_byte_delivery s k b rest). Qed.

Lemma awaited_byte_is_delivered_witness :
  let s := fst (run [Socket_connect; Socket_data (frame (js "abc123"));
                     Socket_written] (new_Session small_options)) in
  handleData (x00 :: []) s =
  invoke K_loginStatus (VByte x00)
    (set_waiting None (set_buffers [] s)).
Proof.
  intros s.
  apply (awaited_byte_is_delivered s K_loginStatus x00 []); reflexivity.
Defined.

(** X7. The frame of a string cut into data events at any places, empty
    events among them: while [readString] waits, no handler is called before
    the event that holds the terminator, and that event calls the waiting
    handler with the string. *)
Theorem any_fragmentation (str : jsstring) (chunks : list buffer) (c : buffer)
    (s : session) (k : cont) :
  wf_string str -> waiting s = Some (Fn_readString, k) -> quiet s ->
  concat chunks ++ c = frame str -> c <> [] ->
  (exists s1, run (map Socket_data chunks) s = (s1, []) /\
              waiting s1 = Some (Fn_readString, k)) /\
  exists sb,
    (0 < length sb)%nat /\
    run (map Socket_data (chunks ++ [c])) s =
    invoke k (VStr str) (set_waiting None (set_stringBuffer sb s)).
Proof.
  intros Hwf Hw Hq Hcat Hc. split.
  - destruct Hq as (Hb & Hesc & Hoff & Hok).
    destruct (exists_last Hc) as (c' & z & ->).
    unfold frame in Hcat.
    rewrite app_assoc in Hcat. apply app_inj_tail in Hcat as [Hcat ->].
    destruct (scanBuffer_escape (utf8_encode str) s Hesc Hok)
      as (sb & Hscan & _).
    rewrite <- Hcat in Hscan.
    destruct (scanBuffer_prefix_None _ _ _ _ Hscan) as (s1 & H1 & _).
    exists s1. split; [apply (feed_None chunks s s1 k Hw Hb H1)|].
    pose proof (scanBuffer_fields (concat chunks) s) as Hf.
    rewrite H1 in Hf. simpl in Hf. destruct Hf as (_ & Hw1 & _). congruence.
  - destruct (feed_frame (utf8_encode str) chunks c s k Hw Hq Hcat Hc)
      as (sb & Hpos & Hrun).
    exists sb. split; [exact Hpos|].
    rewrite Hrun, utf8_decode_encode by exact Hwf. reflexivity.
Qed.

Lemma any_fragmentation_witness :
  let str := [0x20AC; 0; 0x41] in
  let chunks := [[xe2; x82]; []; [xac; xff]; [x00]] in
  let c := [x41; x00] in
  let s := fst (step Socket_connect (new_Session small_options)) in
  (exists s1, run (map Socket_data chunks) s = (s1, []) /\
              waiting s1 = Some (Fn_readString, K_handshake)) /\
  exists sb,
    (0 < length sb)%nat /\
    run (map Socket_data (chunks ++ [c])) s =
    invoke K_handshake (VStr str) (set_waiting None (set_stringBuffer sb s)).
Proof.
  intros str chunks c s.
  apply (any_fragmentation str chunks c s K_handshake).
  - unfold wf_string, scalar. repeat constructor; simpl; lia.
  - reflexivity.
  - apply quietb_quiet. vm_compute. reflexivity.
  - vm_compute. reflexivity.
  - discriminate.
Defined.

(** *** [getLoginStatus] *)

(** X8. The session waits for the login status and a buffer arrives that
    starts with a nonzero byte: the error "authorization failed" is emitted
    and nothing else, no logged-in event; the session stays busy, the queue
    is not drained, and later calls of [execute] are only queued. *)
Theorem login_failure (s : session) (code : byte) (rest : buffer)
    (calls : list (jsstring * option handler)) :
  busy s = true -> waiting s = Some (Fn_readByte, K_loginStatus) ->
  buffers s = [] -> code <> x00 ->
  exists s',
    handleData (code :: rest) s =
      (s', [Emit_error (js "authorization failed")]) /\
    busy s' = true /\ queue s' = queue s /\ written s' = written s /\
    waiting s' = None /\
    run (map call calls) s' =
      (set_queue (rev (map thunk_of calls) ++ queue s) s', []).
Proof.
  intros Hbusy Hw Hb Hcode.
  assert (Hz : Byte.eqb code x00 = false).
  { destruct (Byte.eqb code x00) eqn:E; [|reflexivity].
    apply Byte.byte_dec_bl in E. congruence. }
  rewrite (awaited_byte_delivery s K_loginStatus code rest Hw Hb).
  cbn [invoke is_zero]. rewrite Hz.
  eexists. split; [reflexivity|]. cbn [fst]. repeat split; try exact Hbusy.
  rewrite executes_while_busy by exact Hbusy. reflexivity.
Qed.

Lemma login_failure_witness :
  let s := fst (run [Call_execute (js "xquery 1") None; Socket_connect;
                     Socket_data (frame (js "abc123")); Socket_written]
                  (new_Session small_options)) in
  exists s',
    handleData (x01 :: []) s =
      (s', [Emit_error (js "authorization failed")]) /\
    busy s' = true /\ queue s' = queue s /\ written s' = written s /\
    waiting s' = None /\
    run (map call [(js "xquery 2", None)]) s' =
      (set_queue (rev (map thunk_of [(js "xquery 2", None)]) ++ queue s) s', []).
Proof.
  intros s.
  apply (login_failure s x01 [] [(js "xquery 2", None)]);
    try reflexivity. discriminate.
Defined.

(** *** [execute] and [checkQueue] *)

(** X9. Calls of [execute] made back to back on a free session: only the
    first command is written at once; the others are written one by one, in
    the order of the calls, each when the reply to the command before it has
    been read and its handler called. At the end the session is free and the
    queue is empty. *)
Theorem back_to_back_commands (s : session) (x0 : exchange)
    (xs : list exchange) :
  busy s = false -> waiting s = None -> written s = [] -> queue s = [] ->
  quiet s -> answerable x0 -> Forall answerable xs ->
  snd (run (map call (map x_call (x0 :: xs))) s) =
    [Socket_write (terminated (x_query x0))] /\
  exists s',
    run (map call (map x_call (x0 :: xs)) ++ flat_map served (x0 :: xs)) s =
      (s', flat_map completes (x0 :: xs)) /\
    busy s' = false /\ queue s' = [] /\ waiting s' = None /\ written s' = [].
Proof.
  intros Hfree Hw Hwr Hqueue Hq Hx0 Hxs.
  set (s0 := set_written [W_chain (x_query x0) (default Fn_defaultHandler (x_handler x0))]
               (set_busy true s)).
  assert (Hcalls : run (map call (map x_call (x0 :: xs))) s =
                   (set_queue (rev (map thunk_of (map x_call xs))) s0,
                    [Socket_write (terminated (x_query x0))])).
  { cbn [map]. rewrite run_cons. cbn [call step x_call fst snd].
    rewrite (execute_free _ _ _ Hfree), Hwr. cbn [app]. fold s0.
    rewrite (executes_while_busy _ s0 eq_refl).
    subst s0. cbn [queue set_written set_busy]. rewrite Hqueue, app_nil_r.
    reflexivity. }
  split; [rewrite Hcalls; reflexivity|].
  rewrite run_app, Hcalls.
  destruct (drain xs x0 (default Fn_defaultHandler (x_handler x0))
              (set_queue (rev (map thunk_of (map x_call xs))) s0))
    as (s' & Hrun & Hb' & Hq' & Hw' & Hwr' & _); auto.
  exists s'. rewrite Hrun. auto.
Qed.

Lemma back_to_back_commands_witness :
  let s := logged_in small_options in
  let x0 := {| x_query := js "xquery 1"; x_handler := None;
               x_result := js "1"; x_info := js "ok" |} in
  let xs := [ {| x_query := js "xquery 2"; x_handler := Some (Fn_callback 1);
                 x_result := js "2"; x_info := js "ok" |} ] in
  snd (run (map call (map x_call (x0 :: xs))) s) =
    [Socket_write (terminated (x_query x0))] /\
  exists s',
    run (map call (map x_call (x0 :: xs)) ++ flat_map served (x0 :: xs)) s =
      (s', flat_map completes (x0 :: xs)) /\
    busy s' = false /\ queue s' = [] /\ waiting s' = None /\ written s' = [].
Proof.
  intros s x0 xs.
  apply (back_to_back_commands s x0 xs); try reflexivity.
  - apply quietb_quiet. vm_compute. reflexivity.
  - unfold answerable, wf_string, scalar. simpl.
    repeat split; try discriminate; repeat constructor; simpl; lia.
  - unfold answerable, wf_string, scalar. simpl.
    repeat constructor; simpl; try lia; discriminate.
Defined.

(** *** [chain] *)

Lemma bytewise_app (b1 b2 : buffer) :
  bytewise (b1 ++ b2) = bytewise b1 ++ bytewise b2.
Proof. unfold bytewise. apply map_app. Qed.

Lemma bytewise_frame (str : jsstring) (s : session) (k : cont) :
  wf_string str -> waiting s = Some (Fn_readString, k) -> quiet s ->
  exists sb,
    (0 < length sb)%nat /\
    run (bytewise (frame str)) s =
    invoke k (VStr str) (set_waiting None (set_stringBuffer sb s)).
Proof.
  intros Hwf Hw Hq.
  destruct (feed_frame (utf8_encode str)
              (map (fun b => [b]) (escape (utf8_encode str))) [x00] s k)
    as (sb & Hpos & Hrun); auto.
  { rewrite concat_singletons. reflexivity. }
  exists sb. split; [exact Hpos|].
  unfold bytewise, frame.
  rewrite <- (map_map (fun b => [b]) Socket_data), map_app.
  cbn [map]. rewrite Hrun, utf8_decode_encode by exact Hwf. reflexivity.
Qed.

(** X10. A reply that arrives one byte per data event is read to its end,
    whatever its strings are, the empty info string included: after the
    write of the command is flushed, the chain reads the result, the info and
    the status byte in this order and [invokeHandler] gets the three. *)
Theorem bytewise_reply_is_read (s : session) (query : jsstring) (h : handler)
    (w : list write_callback) (result info : jsstring) (code : byte) :
  waiting s = None -> written s = W_chain query h :: w -> quiet s ->
  wf_string result -> wf_string info ->
  exists sb,
    (0 < length sb)%nat /\
    run (Socket_written :: bytewise (reply result info code)) s =
    invokeHandler query h result info (Some code)
      (set_written w (set_stringBuffer sb s)).
Proof.
  intros Hw Hwr Hq Hres Hinfo.
  pose proof Hq as (Hb & Hesc & Hoff & Hok).
  (* the flushed write starts the chain, which waits for the result *)
  set (k0 := K_maybeInvokeNext query h [] [Fn_readString; Fn_readByte]).
  set (s1 := set_waiting (Some (Fn_readString, k0)) (set_written w s)).
  assert (H1 : step Socket_written s = (s1, [])).
  { cbn [step]. rewrite Hwr. unfold andthen, update. cbn [run_callback].
    unfold chain. cbn [reader_with]. unfold readString_with.
    unfold getStringFromBuffers. cbn [buffers set_written]. rewrite Hb.
    reflexivity. }
  assert (Hq1 : quiet s1) by exact Hq.
  destruct (bytewise_frame result s1 k0 Hres eq_refl Hq1) as (sb1 & Hpos1 & Hrun1).
  (* with the result, the chain waits for the info *)
  set (k1 := K_maybeInvokeNext query h [VStr result] [Fn_readByte]).
  set (s2 := set_waiting (Some (Fn_readString, k1)) (set_stringBuffer sb1 s1)).
  assert (H2 : run (bytewise (frame result)) s1 = (s2, [])).
  { rewrite Hrun1. subst k0. cbn [invoke maybeInvokeNext reader_with app].
    unfold readString_with, getStringFromBuffers.
    cbn [buffers set_waiting set_stringBuffer set_written].
    change (buffers s1) with (buffers s). rewrite Hb.
    reflexivity. }
  assert (Hq2 : quiet s2).
  { unfold quiet, accumulator_ok. simpl. repeat split; auto; lia. }
  destruct (bytewise_frame info s2 k1 Hinfo eq_refl Hq2) as (sb2 & Hpos2 & Hrun2).
  (* with the info, the chain waits for the status byte *)
  set (k2 := K_maybeInvokeNext query h [VStr result; VStr info] []).
  set (s3 := set_waiting (Some (Fn_readByte, k2)) (set_stringBuffer sb2 s2)).
  assert (H3 : run (bytewise (frame info)) s2 = (s3, [])).
  { rewrite Hrun2. subst k1. cbn [invoke maybeInvokeNext reader_with app].
    unfold readByte_with.
    cbn [buffers set_waiting set_stringBuffer set_written].
    change (buffers s2) with (buffers s). rewrite Hb.
    reflexivity. }
  exists sb2. split; [exact Hpos2|].
  rewrite run_cons, H1. unfold reply. rewrite !bytewise_app.
  rewrite run_app, H2. cbv beta iota. rewrite run_app, H3. cbv beta iota.
  cbn [bytewise map]. rewrite run_single. cbn [step app].
  rewrite (awaited_byte_delivery s3 k2 code [] eq_refl) by exact Hb.
  subst k2. cbn [invoke maybeInvokeNext app apply_invokeHandler].
  replace (set_waiting None (set_buffers [] s3))
    with (set_written w (set_stringBuffer sb2 s))
    by (subst s3 s2 s1; destruct s; simpl in *; subst; reflexivity).
  destruct (invokeHandler _ _ _ _ _ _). reflexivity.
Qed.

Lemma bytewise_reply_is_read_witness :
  exists sb,
    (0 < length sb)%nat /\
    run (Socket_written :: bytewise (reply (js "<foo/>") [] x00))
      (in_flight small_options) =
    invokeHandler (js "xquery 1") (Fn_callback 0) (js "<foo/>") [] (Some x00)
      (set_written [] (set_stringBuffer sb (in_flight small_options))).
Proof.
  apply (bytewise_reply_is_read (in_flight small_options) (js "xquery 1")
           (Fn_callback 0) [] (js "<foo/>") [] x00).
  - reflexivity.
  - reflexivity.
  - apply quietb_quiet. vm_compute. reflexivity.
  - unfold wf_string, scalar. repeat constructor; simpl; lia.
  - apply Forall_nil_2.
Defined.

(** *** [performHandshake] and [getLoginStatus] *)

(** X11. Commands issued before the login is done are queued, and a
    successful login starts them: the session writes the user name and the
    digest when the nonce has come; when the status byte 0 has come it
    writes the first queued command and then emits the logged-in event, and
    the queued commands run in the order of their calls. Without queued
    commands the login leaves a free session. *)
Theorem login_starts_queued_commands (o : options_t) (nonce : jsstring)
    (xs : list exchange) :
  wf_string nonce -> (0 < initialStringBufferSize o)%nat ->
  Forall answerable xs ->
  exists s',
    run (map call (map x_call xs) ++
         [Socket_connect; Socket_data (frame nonce); Socket_written;
          Socket_data [x00]] ++
         flat_map served xs)
      (new_Session o) =
    (s',
     Socket_write
       (terminated (user o) ++
        terminated (md5 (md5 (password o) ++ nonce)))
     :: match flat_map completes xs with
        | [] => [Emit_loggedIn]
        | first :: others => first :: Emit_loggedIn :: others
        end) /\
    busy s' = false /\ queue s' = [] /\ waiting s' = None /\ written s' = [].
Proof.
  intros Hwf Hsize Hxs.
  set (Q := rev (map thunk_of (map x_call xs))).
  (* the calls are queued *)
  rewrite run_app, (executes_while_busy _ (new_Session o) eq_refl).
  cbn [queue new_Session]. rewrite app_nil_r. fold Q. cbv beta iota.
  (* connect: the handshake waits for the nonce *)
  set (sa := set_queue Q (new_Session o)).
  set (sb := set_waiting (Some (Fn_readString, K_handshake)) sa).
  assert (Hconn : step Socket_connect sa = (sb, [])) by reflexivity.
  assert (Hqb : quiet sb).
  { subst sb sa. unfold quiet, accumulator_ok, new_Session, new_Buffer. simpl.
    rewrite length_replicate. repeat split; auto; lia. }
  (* the nonce: the credentials are written *)
  destruct (feed_frame (utf8_encode nonce) [] (frame nonce) sb K_handshake
              eq_refl Hqb eq_refl)
    as (sb1 & Hpos1 & Hnonce).
  { unfold frame. destruct (escape (utf8_encode nonce)); discriminate. }
  cbn [app map] in Hnonce. rewrite run_single in Hnonce.
  rewrite utf8_decode_encode in Hnonce by exact Hwf.
  cbn [invoke] in Hnonce. unfold writeStrings in Hnonce.
  rewrite writeStrings_buffer_spec in Hnonce.
  cbn [flat_map options set_waiting set_stringBuffer written app] in Hnonce.
  rewrite app_nil_r in Hnonce.
  change (options sb) with o in Hnonce.
  change (written sb) with (@nil write_callback) in Hnonce.
  cbn [app] in Hnonce.
  set (sc := set_written [W_getLoginStatus]
               (set_waiting None (set_stringBuffer sb1 sb))) in Hnonce.
  (* the write is flushed: the session waits for the status byte *)
  set (sd := set_waiting (Some (Fn_readByte, K_loginStatus)) (set_written [] sc)).
  assert (Hflush : step Socket_written sc = (sd, [])) by reflexivity.
  (* the status byte 0: the queue is checked, then the event is emitted *)
  assert (Hbyte : step (Socket_data [x00]) sd =
                  (checkQueue >>> emit Emit_loggedIn)
                    (set_waiting None (set_buffers [] sd))).
  { cbn [step]. rewrite (awaited_byte_delivery sd K_loginStatus x00 [] eq_refl eq_refl).
    reflexivity. }
  cbn [app]. rewrite run_cons, Hconn. rewrite run_cons, Hnonce.
  rewrite run_cons, Hflush. rewrite run_cons, Hbyte.
  unfold andthen at 1. unfold checkQueue, andthen at 1, update at 1.
  change (queue (set_busy false (set_waiting None (set_buffers [] sd)))) with Q.
  destruct xs as [|x1 xs].
  - subst Q. cbn [map rev pop flat_map run]. unfold skip, emit.
    eexists. split; [reflexivity|]. repeat split.
  - subst Q. cbn [map rev]. rewrite pop_snoc.
    unfold andthen at 1, update at 1.
    rewrite run_thunk_free by reflexivity.
    inversion Hxs as [|? ? Hx1 Hxs']; subst.
    edestruct (drain xs x1 (default Fn_defaultHandler (x_handler x1)))
      as (s' & Hrun & Hb' & Hq' & Hw' & Hwr' & _);
      [..| exact Hx1 | exact Hxs' |].
    6: { unfold emit. cbv beta iota. rewrite Hrun. exists s'.
         split; [|auto]. cbn [flat_map completes app]. reflexivity. }
    all: try reflexivity.
    unfold quiet, accumulator_ok. simpl. repeat split; auto; lia.
Qed.

Lemma login_starts_queued_commands_witness :
  let xs := [ {| x_query := js "xquery 1"; x_handler := None;
                 x_result := js "1"; x_info := js "ok" |};
              {| x_query := js "xquery 2"; x_handler := Some (Fn_callback 1);
                 x_result := js "2"; x_info := js "ok" |} ] in
  exists s',
    run (map call (map x_call xs) ++
         [Socket_connect; Socket_data (frame (js "abc123")); Socket_written;
          Socket_data [x00]] ++
         flat_map served xs)
      (new_Session sessionDefaults) =
    (s',
     Socket_write
       (terminated (user sessionDefaults) ++
        terminated (md5 (md5 (password sessionDefaults) ++ js "abc123")))
     :: match flat_map completes xs with
        | [] => [Emit_loggedIn]
        | first :: others => first :: Emit_loggedIn :: others
        end) /\
    busy s' = false /\ queue s' = [] /\ waiting s' = None /\ written s' = [].
Proof.
  intros xs.
  apply (login_starts_queued_commands sessionDefaults (js "abc123") xs).
  - unfold wf_string, scalar. repeat constructor; simpl; lia.
  - cbn [sessionDefaults initialStringBufferSize]. lia.
  - unfold answerable, wf_string, scalar. simpl.
    repeat constructor; simpl; try lia; discriminate.
Defined.

(** *** The writer against the reader *)

Lemma terminated_nonempty (str : jsstring) (rest : buffer) :
  (0 <? length (terminated str ++ rest))%nat = true.
Proof.
  apply Nat.ltb_lt. unfold terminated. rewrite !length_app. simpl. lia.
Qed.

Lemma read_strings_terminated (strs : list jsstring) : forall s : session,
  Forall (fun str => wf_string str /\ Forall (fun c => c <> 0) str) strs ->
  inEscape s = false -> stringBufferOffset s = 0%nat -> accumulator_ok s ->
  buffers s =
    (if (0 <? length (flat_map terminated strs))%nat
     then [flat_map terminated strs] else []) ->
  exists s',
    read_strings (length strs) s = (map Some strs, s') /\ buffers s' = [].
Proof.
  induction strs as [|str strs IH]; intros s Hall Hesc Hoff Hok Hb.
  - exists s. split; [reflexivity | exact Hb].
  - inversion Hall as [|? ? [Hwf Hnz] Hall']; subst.
    cbn [flat_map] in Hb. rewrite terminated_nonempty in Hb.
    rewrite (terminated_frame str Hnz) in Hb.
    destruct (getStringFromBuffers_frame str (flat_map terminated strs) [] s
                Hwf Hesc Hoff Hok Hb) as (sb & Hpos & Hget).
    cbn [length read_strings map]. rewrite Hget.
    edestruct (IH (decoder_at sb 0 false
                     (set_buffers
                        (if (0 <? length (flat_map terminated strs))%nat
                         then [flat_map terminated strs] else []) s)))
      as (s' & Hrest & Hb'); [exact Hall' | reflexivity | reflexivity | |reflexivity|].
    { split; simpl; lia. }
    rewrite Hrest. exists s'. split; [reflexivity | exact Hb'].
Qed.

(** X12. What [writeStrings] writes is read back by the decoder: the buffer
    written for strings without U+0000, put into the chain of a session with
    no string begun, is read as these strings in their order, and nothing is
    left over. *)
Theorem written_strings_read_back (strs : list jsstring) (s : session) :
  Forall (fun str => wf_string str /\ Forall (fun c => c <> 0) str) strs ->
  inEscape s = false -> stringBufferOffset s = 0%nat -> accumulator_ok s ->
  exists s',
    read_strings (length strs)
      (set_buffers [writeStrings_buffer strs] s) = (map Some strs, s') /\
    concat (buffers s') = [].
Proof.
  intros Hall Hesc Hoff Hok. rewrite writeStrings_buffer_spec.
  destruct strs as [|str strs].
  - eexists. split; reflexivity.
  - destruct (read_strings_terminated (str :: strs)
                (set_buffers [flat_map terminated (str :: strs)] s))
      as (s' & Hread & Hb'); auto.
    { cbn [flat_map]. rewrite terminated_nonempty. reflexivity. }
    exists s'. rewrite Hb'. split; [exact Hread | reflexivity].
Qed.

Lemma written_strings_read_back_witness :
  let strs := [js "admin"; []; [0xE9; 0x20AC; 0x1F600]] in
  let s := logged_in small_options in
  exists s',
    read_strings (length strs)
      (set_buffers [writeStrings_buffer strs] s) = (map Some strs, s') /\
    concat (buffers s') = [].
Proof.
  intros strs s.
  apply (written_strings_read_back strs s).
  - unfold wf_string, scalar.
    repeat (apply Forall_cons_2 || apply Forall_nil_2 || split);
      simpl; try lia; try reflexivity.
  - reflexivity.
  - reflexivity.
  - unfold accumulator_ok. vm_compute. lia.
Defined.

(** *** What every event keeps *)

Lemma sound_skip : sound skip.
Proof. intros s. split; [auto | intros []]. Qed.

Lemma sound_emit (o : output) : o <> Throw_TypeError -> sound (emit o).
Proof.
  intros Ho s. split; [auto|]. simpl. intros [H|[]]. congruence.
Qed.

Lemma sound_update (f : session -> session) :
  (forall s, well_kept s -> well_kept (f s)) -> sound (update f).
Proof. intros Hf s. split; [apply Hf | intros []]. Qed.

Lemma sound_andthen (a b : action) : sound a -> sound b -> sound (a >>> b).
Proof.
  intros Ha Hb s. unfold andthen.
  destruct (Ha s) as [Ha1 Ha2]. destruct (a s) as [s1 o1].
  destruct (Hb s1) as [Hb1 Hb2]. destruct (b s1) as [s2 o2].
  simpl in *. split; [auto|].
  rewrite in_app_iff. tauto.
Qed.

Lemma sound_writeStrings (strs : list jsstring) (cb : write_callback) :
  sound (writeStrings strs cb).
Proof.
  intros s. unfold writeStrings. split; [auto|].
  simpl. intros [H|[]]. discriminate.
Qed.

Lemma sound_execute (query : jsstring) (handler : option handler) :
  sound (execute query handler).
Proof.
  intros s. unfold execute. destruct (busy s).
  - split; [auto | intros []].
  - apply sound_andthen; [apply sound_update; auto | apply sound_writeStrings].
Qed.

Lemma sound_checkQueue : sound checkQueue.
Proof.
  unfold checkQueue. apply sound_andthen; [apply sound_update; auto|].
  intros s. destruct (pop (queue s)) as [[t q]|].
  - apply sound_andthen; [apply sound_update; auto | apply sound_execute].
  - apply sound_skip.
Qed.

Lemma sound_call_handler (h : handler) (args : list jsval) :
  sound (call_handler h args).
Proof. destruct h; apply sound_emit; discriminate. Qed.

Lemma sound_invokeHandler (query : jsstring) (h : handler)
    (result info : jsstring) (code : option byte) :
  sound (invokeHandler query h result info code).
Proof.
  unfold invokeHandler. destruct (is_zero code).
  - apply sound_andthen; [apply sound_call_handler | apply sound_checkQueue].
  - apply sound_emit. discriminate.
Qed.

Lemma sound_apply_invokeHandler (query : jsstring) (h : handler)
    (args : list jsval) :
  sound (apply_invokeHandler query h args).
Proof.
  unfold apply_invokeHandler.
  repeat match goal with
         | |- sound (match ?x with _ => _ end) => destruct x
         end;
    apply sound_invokeHandler || apply sound_skip.
Qed.

Lemma scanBuffer_ok (rest : buffer) : forall s : session,
  accumulator_ok s -> accumulator_ok (snd (scanBuffer rest s)).
Proof.
  induction rest as [|byte rest IH]; intros s Hok; cbn [scanBuffer].
  - exact Hok.
  - destruct (pushToStringBuffer_spec byte s Hok) as [_ Hok'].
    destruct (inEscape s); [apply IH; exact Hok'|].
    destruct (Byte.eqb byte xff); [apply IH; exact Hok|].
    destruct (Byte.eqb byte x00); [|apply IH; exact Hok'].
    destruct Hok as [Hpos _]. split; simpl; lia.
Qed.

Lemma getStringFromBuffers_while_kept (bufs : list buffer) :
  forall s : session,
  buffers s = bufs -> well_kept s ->
  well_kept (snd (getStringFromBuffers_while bufs s)) /\
  waiting (snd (getStringFromBuffers_while bufs s)) = waiting s.
Proof.
  induction bufs as [|b bufs IH]; intros s Hb [Hok Hne].
  - split; [split; assumption | reflexivity].
  - cbn [getStringFromBuffers_while]. rewrite scanBuffer_set_buffers.
    rewrite Hb in Hne. apply Forall_cons_1 in Hne as [_ Hne].
    pose proof (scanBuffer_ok b s Hok) as Hok1.
    pose proof (scanBuffer_fields b s) as Hf. simpl in Hf.
    destruct Hf as (_ & Hw1 & _).
    destruct (scanBuffer b s) as [[[str unconsumed]|] s1]; cbn [fst snd] in *.
    + destruct unconsumed as [|u unconsumed]; cbn [length Nat.ltb Nat.leb snd].
      * split; [split; [exact Hok1 | exact Hne] | exact Hw1].
      * split; [split; [exact Hok1|] | exact Hw1].
        apply Forall_cons_2; [discriminate | exact Hne].
    + destruct (IH (set_buffers bufs s1) eq_refl) as [Hk Hw'].
      { split; [exact Hok1 | exact Hne]. }
      split; [exact Hk | rewrite Hw'; exact Hw1].
Qed.

Lemma getStringFromBuffers_kept (s : session) :
  well_kept s ->
  well_kept (snd (getStringFromBuffers s)) /\
  waiting (snd (getStringFromBuffers s)) = waiting s.
Proof. apply getStringFromBuffers_while_kept. reflexivity. Qed.

Lemma getStringFromBuffers_waiting (s : session) :
  waiting (snd (getStringFromBuffers s)) = waiting s.
Proof.
  unfold getStringFromBuffers.
  destruct (getStringFromBuffers_while_concat (buffers s) s eq_refl)
    as (bufs' & H & _).
  rewrite H. cbn [snd waiting set_buffers].
  apply (scanBuffer_fields (concat (buffers s)) s).
Qed.

Lemma getByteFromBuffers_kept (s s' : session) (v : jsval) :
  getByteFromBuffers s = Some (v, s') ->
  waiting s' = waiting s /\ (well_kept s -> well_kept s').
Proof.
  unfold getByteFromBuffers. destruct (buffers s) as [|b0 bufs] eqn:Hb;
    [discriminate|].
  intros [= <- <-].
  split; [destruct (1 <? length b0)%nat; reflexivity|].
  intros [Hok Hne]. rewrite Hb in Hne. apply Forall_cons_1 in Hne as [_ Hne].
  destruct b0 as [|x [|y b0]]; cbn [length Nat.ltb Nat.leb];
    (split; [exact Hok|]); cbn [buffers set_buffers]; try exact Hne.
  apply Forall_cons_2; [discriminate | exact Hne].
Qed.

Lemma sound_readString_with (call : cont -> jsval -> action) (k : cont) :
  (forall v, sound (call k v)) -> sound (readString_with call k).
Proof.
  intros Hcall s. unfold readString_with.
  pose proof (getStringFromBuffers_kept s) as Hk.
  destruct (getStringFromBuffers s) as [string s1]. cbn [snd] in Hk.
  destruct (truthy string).
  - destruct (Hcall (VStr (default [] string)) s1) as [H1 H2].
    split; [intros Hs; apply H1, Hk, Hs | exact H2].
  - split; [intros Hs; apply Hk, Hs | intros []].
Qed.

Lemma sound_readByte_with (call : cont -> jsval -> action) (k : cont) :
  (forall v, sound (call k v)) -> sound (readByte_with call k).
Proof.
  intros Hcall s. unfold readByte_with.
  destruct (0 <? length (buffers s))%nat eqn:E.
  - destruct (getByteFromBuffers s) as [[v s1]|] eqn:G.
    + destruct (getByteFromBuffers_kept s s1 v G) as [_ Hk].
      destruct (Hcall v s1) as [H1 H2].
      split; [intros Hs; apply H1, Hk, Hs | exact H2].
    + unfold getByteFromBuffers in G.
      destruct (buffers s); [discriminate E | discriminate G].
  - split; [auto | intros []].
Qed.

Lemma sound_maybeInvokeNext (query : jsstring) (h : handler)
    (functions : list reader) :
  forall (args : list jsval) (arg : jsval),
  sound (maybeInvokeNext query h functions args arg).
Proof.
  induction functions as [|f functions IH]; intros args arg;
    cbn [maybeInvokeNext].
  - apply sound_apply_invokeHandler.
  - destruct f; cbn [reader_with].
    + apply sound_readString_with. intros v. apply IH.
    + apply sound_readByte_with. intros v. apply IH.
Qed.

Lemma sound_invoke (k : cont) (arg : jsval) : sound (invoke k arg).
Proof.
  destruct k; cbn [invoke].
  - destruct arg; try apply sound_skip.
    intros s0. apply sound_writeStrings.
  - destruct arg; try apply sound_skip.
    + apply sound_emit. discriminate.
    + destruct (is_zero (Some b)).
      * apply sound_andthen; [apply sound_checkQueue|].
        apply sound_emit. discriminate.
      * apply sound_emit. discriminate.
  - apply sound_maybeInvokeNext.
Qed.

Lemma handleData_kept (data : buffer) (s : session) :
  (data <> [] -> well_kept s -> well_kept (fst (handleData data s))) /\
  ~ In Throw_TypeError (snd (handleData data s)).
Proof.
  unfold handleData.
  set (s0 := set_buffers (buffers s ++ [data]) s).
  assert (Hk0 : data <> [] -> well_kept s -> well_kept s0).
  { intros Hd [Hok Hne]. split; [exact Hok|]. subst s0. simpl.
    apply Forall_app_2; [exact Hne|].
    apply Forall_cons_2; [exact Hd | apply Forall_nil_2]. }
  change (waiting s0) with (waiting s).
  destruct (waiting s) as [[[] k]|] eqn:Hw.
  - pose proof (getStringFromBuffers_kept s0) as Hk.
    pose proof (getStringFromBuffers_waiting s0) as Hw1.
    destruct (getStringFromBuffers s0) as [[str|] s1]; cbn [snd] in *.
    + unfold popAndInvokeHandler. rewrite Hw1.
      change (waiting s0) with (waiting s). rewrite Hw.
      destruct (sound_invoke k (VStr str) (set_waiting None s1)) as [H1 H2].
      split; [|exact H2]. intros Hd Hs. apply H1.
      destruct Hk as [Hk _]; [apply Hk0; assumption|]. exact Hk.
    + split; [|intros []]. intros Hd Hs. apply Hk, Hk0; assumption.
  - destruct (getByteFromBuffers s0) as [[v s1]|] eqn:G.
    + destruct (getByteFromBuffers_kept s0 s1 v G) as [Hw1 Hk].
      unfold popAndInvokeHandler. rewrite Hw1.
      change (waiting s0) with (waiting s). rewrite Hw.
      destruct (sound_invoke k v (set_waiting None s1)) as [H1 H2].
      split; [|exact H2]. intros Hd Hs. apply H1.
      apply Hk, Hk0; assumption.
    + unfold getByteFromBuffers in G. subst s0. simpl in G.
      destruct (buffers s); discriminate.
  - split; [exact Hk0 | intros []].
Qed.

Lemma step_kept (e : event) (s : session) :
  (nonempty_data e -> well_kept s -> well_kept (fst (step e s))) /\
  ~ In Throw_TypeError (snd (step e s)).
Proof.
  destruct e as [|data| | |query h0]; cbn [step nonempty_data].
  - destruct (sound_readString_with invoke K_handshake
                (sound_invoke K_handshake) s) as [H1 H2].
    split; [intros _; exact H1 | exact H2].
  - apply handleData_kept.
  - destruct (written s) as [|cb rest].
    + split; [auto | intros []].
    + assert (Hs : sound (update (set_written rest) >>> run_callback cb)).
      { apply sound_andthen; [apply sound_update; auto|].
        destruct cb; cbn [run_callback].
        - apply sound_readByte_with. apply sound_invoke.
        - unfold chain. cbn [reader_with].
          apply sound_readString_with. apply sound_invoke. }
      destruct (Hs s) as [H1 H2]. split; [intros _; exact H1 | exact H2].
  - split; [auto | intros []].
  - destruct (sound_execute query h0 s) as [H1 H2].
    split; [intros _; exact H1 | exact H2].
Qed.

(** X13. From a new session with a string buffer of positive size, whatever
    events happen (the socket delivering no empty buffer): the accumulator
    always has room or can grow, its offset never passes its length, and no
    empty buffer enters the chain. *)
Theorem session_is_well_kept (o : options_t) (es : list event) :
  (0 < initialStringBufferSize o)%nat -> Forall nonempty_data es ->
  well_kept (fst (run es (new_Session o))).
Proof.
  intros Hsize Hes.
  assert (H0 : well_kept (new_Session o)).
  { unfold well_kept, accumulator_ok, new_Session, new_Buffer. simpl.
    rewrite length_replicate. repeat split; auto; lia. }
  revert H0. generalize (new_Session o).
  induction Hes as [|e es He _ IH]; intros s Hs; [exact Hs|].
  rewrite run_cons.
  destruct (step_kept e s) as [Hk _]. specialize (Hk He Hs).
  destruct (step e s) as [s1 o1]. specialize (IH s1 Hk).
  destruct (run es s1) as [s2 o2]. exact IH.
Qed.

Lemma session_is_well_kept_witness :
  well_kept
    (fst (run [Call_execute (js "xquery 1") None; Socket_connect;
               Socket_data [x61; x62]; Socket_data [x00; x00];
               Socket_written; Socket_data [x00; x07]; Socket_end]
            (new_Session small_options))).
Proof.
  apply (session_is_well_kept small_options).
  - simpl. lia.
  - repeat (apply Forall_cons_2 || apply Forall_nil_2); simpl;
      try exact I; discriminate.
Defined.

(** X14. No run of events makes the session read the first byte of a buffer
    that is not there, or call a handler that is not there: [handleData]
    pops the handler only when a reader is registered, and a byte is taken
    only from a chain that has a buffer. *)
Theorem no_TypeError_is_thrown (es : list event) (s : session) :
  ~ In Throw_TypeError (snd (run es s)).
Proof.
  revert s. induction es as [|e es IH]; intros s; [intros []|].
  rewrite run_cons.
  destruct (step_kept e s) as [_ Hn]. destruct (step e s) as [s1 o1].
  specialize (IH s1). destruct (run es s1) as [s2 o2].
  simpl in *. rewrite in_app_iff. tauto.
Qed.

(** *** Replies that come early, sessions that are stuck *)

(** X15. A reply that arrives before the write of its command is flushed is
    buffered, and the chain reads it as soon as the write callback starts
    it: with a non-empty result and a non-empty info, [invokeHandler] gets
    the result, the info and the status byte within that callback. *)
Theorem early_reply_is_read (s : session) (query : jsstring) (h : handler)
    (w : list write_callback) (result info : jsstring) (code : byte) :
  waiting s = None -> written s = W_chain query h :: w -> quiet s ->
  wf_string result -> wf_string info -> result <> [] -> info <> [] ->
  step (Socket_data (reply result info code)) s =
    (set_buffers [reply result info code] s, []) /\
  exists sb,
    (0 < length sb)%nat /\
    run [Socket_data (reply result info code); Socket_written] s =
    invokeHandler query h result info (Some code)
      (set_written w (set_stringBuffer sb s)).
Proof.
  intros Hw Hwr (Hb & Hesc & Hoff & Hok) Hres Hinfo Hne1 Hne2.
  assert (H1 : step (Socket_data (reply result info code)) s =
               (set_buffers [reply result info code] s, [])).
  { cbn [step]. unfold handleData.
    change (waiting (set_buffers (buffers s ++ [reply result info code]) s))
      with (waiting s).
    rewrite Hw, Hb. reflexivity. }
  split; [exact H1|].
  set (s1 := set_written w (set_buffers [reply result info code] s)).
  destruct (getStringFromBuffers_frame result (frame info ++ [code]) [] s1
              Hres Hesc Hoff Hok eq_refl) as (sb1 & Hpos1 & Hget1).
  rewrite frame_nonempty in Hget1.
  set (s2 := decoder_at sb1 0 false (set_buffers [frame info ++ [code]] s1))
    in Hget1.
  assert (Hok2 : accumulator_ok s2) by (split; simpl; lia).
  destruct (getStringFromBuffers_frame info [code] [] s2 Hinfo eq_refl eq_refl
              Hok2 eq_refl) as (sb2 & Hpos2 & Hget2).
  exists sb2. split; [exact Hpos2|].
  rewrite run_two, H1. cbn [step set_buffers written]. rewrite Hwr.
  unfold andthen at 1, update at 1. cbn [run_callback]. unfold chain.
  cbn [reader_with]. unfold readString_with at 1.
  fold s1. rewrite Hget1.
  replace (truthy (Some result)) with true
    by (destruct result; [congruence | reflexivity]).
  cbn [default from_option id]. unfold id.
  cbn [invoke maybeInvokeNext reader_with app]. unfold readString_with at 1.
  rewrite Hget2.
  replace (truthy (Some info)) with true
    by (destruct info; [congruence | reflexivity]).
  cbn [default from_option id]. unfold id.
  cbn [maybeInvokeNext reader_with app]. unfold readByte_with at 1.
  cbn [buffers decoder_at set_buffers length Nat.ltb Nat.leb].
  unfold getByteFromBuffers.
  cbn [buffers decoder_at set_buffers length Nat.ltb Nat.leb].
  cbn [maybeInvokeNext app apply_invokeHandler].
  replace (set_buffers [] (decoder_at sb2 0 false (set_buffers [[code]] s2)))
    with (set_written w (set_stringBuffer sb2 s))
    by (subst s2 s1; destruct s; simpl in *; subst; reflexivity).
  destruct (invokeHandler query h result info (Some code) _) as [s' o].
  reflexivity.
Qed.

Lemma early_reply_is_read_witness :
  let s := in_flight small_options in
  step (Socket_data (reply (js "1") (js "ok") x00)) s =
    (set_buffers [reply (js "1") (js "ok") x00] s, []) /\
  exists sb,
    (0 < length sb)%nat /\
    run [Socket_data (reply (js "1") (js "ok") x00); Socket_written] s =
    invokeHandler (js "xquery 1") (Fn_callback 0) (js "1") (js "ok") (Some x00)
      (set_written [] (set_stringBuffer sb s)).
Proof.
  intros s.
  apply (early_reply_is_read s (js "xquery 1") (Fn_callback 0) []
           (js "1") (js "ok") x00).
  - reflexivity.
  - reflexivity.
  - apply quietb_quiet. vm_compute. reflexivity.
  - unfold wf_string, scalar. repeat constructor; simpl; lia.
  - unfold wf_string, scalar. repeat constructor; simpl; lia.
  - discriminate.
  - discriminate.
Defined.

Lemma step_stalled (e : event) (s : session) :
  stalled s -> e <> Socket_connect ->
  snd (step e s) = [] /\ stalled (fst (step e s)) /\
  exists q, queue (fst (step e s)) = q ++ queue s.
Proof.
  intros (Hbusy & Hw & Hwr) He. destruct e as [|data| | |query h0]; cbn [step].
  - congruence.
  - unfold handleData.
    change (waiting (set_buffers (buffers s ++ [data]) s)) with (waiting s).
    rewrite Hw. cbn [fst snd]. repeat split; auto. exists []. reflexivity.
  - rewrite Hwr. unfold skip. cbn [fst snd]. repeat split; auto.
    exists []. reflexivity.
  - unfold update. cbn [fst snd]. repeat split; auto. exists []. reflexivity.
  - unfold execute. rewrite Hbusy. cbn [fst snd]. repeat split; auto.
    eexists [_]. reflexivity.
Qed.

(** X16. A busy session with no reader registered and no write waiting to be
    flushed (as a failed command or a failed login leaves it) is stuck for
    good: whatever data arrives, whatever is called, and when the socket
    ends, nothing is written or emitted and no handler is called; the
    session stays busy and the queue loses nothing. *)
Theorem stalled_session_stays_stalled (es : list event) (s : session) :
  stalled s -> Forall (fun e => e <> Socket_connect) es ->
  snd (run es s) = [] /\ stalled (fst (run es s)) /\
  exists q, queue (fst (run es s)) = q ++ queue s.
Proof.
  intros Hs Hes. revert s Hs.
  induction Hes as [|e es He _ IH]; intros s Hs.
  - cbn [run]. unfold skip. cbn [fst snd]. repeat split; try apply Hs.
    exists []. reflexivity.
  - rewrite run_cons.
    destruct (step_stalled e s Hs He) as (Ho & Hs1 & (q1 & Hq1)).
    destruct (step e s) as [s1 o1]. cbn [fst snd] in *.
    destruct (IH s1 Hs1) as (Ho2 & Hs2 & (q2 & Hq2)).
    destruct (run es s1) as [s2 o2]. cbn [fst snd] in *.
    subst. split; [reflexivity|]. split; [exact Hs2|].
    exists (q2 ++ q1). rewrite Hq2, Hq1, app_assoc. reflexivity.
Qed.

Lemma stalled_session_stays_stalled_witness :
  let s := fst (run [Socket_written; Socket_data (reply (js "") (js "E") x01)]
                  (in_flight small_options)) in
  let es := [Socket_data [x00]; Call_execute (js "xquery 2") None;
             Socket_written; Socket_data (reply (js "2") (js "ok") x00);
             Socket_end] in
  snd (run es s) = [] /\ stalled (fst (run es s)) /\
  exists q, queue (fst (run es s)) = q ++ queue s.
Proof.
  intros s es.
  apply (stalled_session_stays_stalled es s).
  - repeat split.
  - repeat (apply Forall_cons_2 || apply Forall_nil_2); discriminate.
Defined.
